(** * Minesweeper knowledge base: sentences and the inference engine

    A shallow embedding of [src/minesweeper.py].  Cells are pairs of Python
    integers, cell sets are finite sets, and the [Sentence] objects that the
    lists of [MinesweeperAI.add_knowledge] share live in an explicit store, so
    that the in-place updates of [mark_mine] and [mark_safe] reach exactly the
    objects the Python code reaches. *)

From stdpp Require Import gmap list.
From Stdlib Require Import ZArith Lia.

Local Open Scope Z_scope.

(** A board coordinate [(row, column)]. *)
Abbreviation Cell := (Z * Z)%type.

(** ** The board (class [Minesweeper]) *)

Module Minesweeper.

(** [self.board[i][j]] is [True] exactly on the cells of [self.mines]. *)
Record t := Make { height : Z; width : Z; mines : gset Cell }.

Definition is_mine (b : t) (cell : Cell) : bool := bool_decide (cell ∈ mines b).

(** [range(a - 1, a + 2)] *)
Definition around (a : Z) : list Z := [a - 1; a; a + 1].

(** [0 <= i < height and 0 <= j < width] *)
Definition in_bounds (h w : Z) (c : Cell) : bool :=
  bool_decide (0 ≤ c.1 < h) && bool_decide (0 ≤ c.2 < w).

(** The cells the two nested [for] loops visit, in iteration order. *)
Definition window (cell : Cell) : list Cell :=
  i ← around cell.1; j ← around cell.2; [(i, j)].

(** One pass of the loop body of [nearby_mines]. *)
Definition tally (b : t) (cell : Cell) (count : Z) (c : Cell) : Z :=
  if bool_decide (c = cell) then count
  else if in_bounds (height b) (width b) c && is_mine b c then count + 1
       else count.

Definition nearby_mines (b : t) (cell : Cell) : Z :=
  foldl (tally b cell) 0 (window cell).

End Minesweeper.

(** The cells of a board of [h] rows and [w] columns. *)
Definition board_cells (h w : Z) : gset Cell :=
  list_to_set (i ← seqZ 0 h; j ← seqZ 0 w; [(i, j)]).

(** ** Sentences (class [Sentence]) *)

Module Sentence.

Record t := Make { cells : gset Cell; count : Z }.

#[global] Instance t_inhabited : Inhabited t := populate (Make ∅ 0).

#[global] Instance t_eq_dec : EqDecision t.
Proof. solve_decision. Defined.

(** [__eq__] *)
Definition eq (self other : t) : bool :=
  bool_decide (cells self = cells other) && bool_decide (count self = count other).

Definition known_mines (self : t) : gset Cell :=
  if bool_decide (Z.of_nat (size (cells self)) = count self) then cells self else ∅.

Definition known_safes (self : t) : gset Cell :=
  if bool_decide (count self = 0) then cells self else ∅.

Definition mark_mine (cell : Cell) (self : t) : t :=
  if bool_decide (cell ∈ cells self)
  then Make (cells self ∖ {[cell]}) (count self - 1)
  else self.

Definition mark_safe (cell : Cell) (self : t) : t :=
  if bool_decide (cell ∈ cells self)
  then Make (cells self ∖ {[cell]}) (count self)
  else self.

(** The sentence states a fact of the board whose mines are [B]: exactly
    [count] of its cells are mines. *)
Definition holds (B : gset Cell) (self : t) : Prop :=
  Z.of_nat (size (cells self ∩ B)) = count self.

(** The sentence [s'] is what is left of [s] after some of its cells were
    marked: it lost cells, and its count fell by at most their number. *)
Definition reduced (s s' : t) : Prop :=
  cells s' ⊆ cells s
  ∧ count s' ≤ count s
  ∧ count s - count s' ≤ Z.of_nat (size (cells s ∖ cells s')).

End Sentence.

(** ** The store of sentence objects

    A Python list holds references.  A [loc] names a [Sentence] object, the
    store gives each object its current state, and a Python list of
    sentences is a [list loc]. *)

Abbreviation loc := nat.
Abbreviation store := (list Sentence.t).

Definition deref (h : store) (l : loc) : Sentence.t := h !!! l.

(** [Sentence(cells, count)]: a fresh object. *)
Definition alloc (h : store) (s : Sentence.t) : store * loc := (h ++ [s], length h).

(** The sentences of [ss], each a fresh object, in order. *)
Definition alloc_all (h : store) (ss : list Sentence.t) : store * list loc :=
  (h ++ ss, seq (length h) (length ss)).

(** The comparison that [list.remove] and list [==] apply to two elements:
    identity first, then [__eq__]. *)
Definition same_or_eq (h : store) (a b : loc) : bool :=
  bool_decide (a = b) || Sentence.eq (deref h a) (deref h b).

(** [lst.remove(x)]: drops the first element equal to [x]; [None] stands for
    the [ValueError] that Python raises when there is none. *)
Fixpoint list_remove (h : store) (x : loc) (lst : list loc) : option (list loc) :=
  match lst with
  | [] => None
  | y :: rest =>
      if same_or_eq h y x then Some rest
      else cons y <$> list_remove h x rest
  end.

(** [for x in xs: lst.remove(x)] *)
Fixpoint remove_each (h : store) (xs : list loc) (lst : list loc) : option (list loc) :=
  match xs with
  | [] => Some lst
  | x :: xs' =>
      match list_remove h x lst with
      | Some lst' => remove_each h xs' lst'
      | None => None
      end
  end.

(** [a == b] on lists of sentences. *)
Fixpoint list_eq (h : store) (a b : list loc) : bool :=
  match a, b with
  | [], [] => true
  | x :: a', y :: b' => same_or_eq h x y && list_eq h a' b'
  | _, _ => false
  end.

(** The entries of a list are objects of the store. *)
Definition within (h : store) (lst : list loc) : Prop :=
  Forall (fun l => (l < length h)%nat) lst.

(** How many entries of a list are objects in the state [s]. *)
Definition occurrences (h : store) (s : Sentence.t) (lst : list loc) : nat :=
  length (filter (fun l => deref h l = s) lst).

(** ** The player (class [MinesweeperAI]) *)

Inductive exn := ValueError.

(** How a call ends. *)
Inductive outcome := Returned | Raised (e : exn).

Module MinesweeperAI.

Record t := Make {
  height : Z;
  width : Z;
  moves_made : gset Cell;
  mines : gset Cell;
  safes : gset Cell;
  knowledge : list loc;
  heap : store
}.

(** [__init__] *)
Definition init (height width : Z) : t := Make height width ∅ ∅ ∅ [] [].

Definition set_heap (h : store) (ai : t) : t :=
  Make (height ai) (width ai) (moves_made ai) (mines ai) (safes ai) (knowledge ai) h.

Definition set_knowledge (k : list loc) (ai : t) : t :=
  Make (height ai) (width ai) (moves_made ai) (mines ai) (safes ai) k (heap ai).

(** [for sentence in self.knowledge: sentence.f(cell)] *)
Definition update_all (f : Sentence.t -> Sentence.t) (k : list loc) (h : store) : store :=
  foldl (fun h l => alter f l h) h k.

Definition mark_mine (cell : Cell) (ai : t) : t :=
  Make (height ai) (width ai) (moves_made ai) ({[cell]} ∪ mines ai) (safes ai)
       (knowledge ai) (update_all (Sentence.mark_mine cell) (knowledge ai) (heap ai)).

Definition mark_safe (cell : Cell) (ai : t) : t :=
  Make (height ai) (width ai) (moves_made ai) (mines ai) ({[cell]} ∪ safes ai)
       (knowledge ai) (update_all (Sentence.mark_safe cell) (knowledge ai) (heap ai)).

(** Lines 204-220: the in-bounds cells of the 3x3 window other than [cell]. *)
Definition neighbors (ai : t) (cell : Cell) : gset Cell :=
  list_to_set
    (filter (fun c => Minesweeper.in_bounds (height ai) (width ai) c = true ∧ c ≠ cell)
            (Minesweeper.window cell)).

(** Lines 226-231: one pass of [for neighbor in neighbors], on the pair
    [(repeat_neighbors, count)]. *)
Definition scan_neighbor (ai : t) (neighbor : Cell) (acc : gset Cell * Z) : gset Cell * Z :=
  if bool_decide (neighbor ∈ safes ai) then ({[neighbor]} ∪ acc.1, acc.2)
  else if bool_decide (neighbor ∈ mines ai) then ({[neighbor]} ∪ acc.1, acc.2 - 1)
  else acc.

(** Lines 204-237: the sentence built from [cell] and [count]. *)
Definition new_sentence (ai : t) (cell : Cell) (count : Z) : Sentence.t :=
  let nb := neighbors ai cell in
  let scanned := set_fold (scan_neighbor ai) (∅, count) nb in
  Sentence.Make (nb ∖ scanned.1) scanned.2.

(** Lines 196-237: everything [add_knowledge] does before its loop. *)
Definition record_move (cell : Cell) (count : Z) (ai : t) : t :=
  let ai := Make (height ai) (width ai) ({[cell]} ∪ moves_made ai) (mines ai) (safes ai)
                 (knowledge ai) (heap ai) in
  let ai := mark_safe cell ai in
  let fresh := alloc (heap ai) (new_sentence ai cell count) in
  Make (height ai) (width ai) (moves_made ai) (mines ai) (safes ai)
       (knowledge ai ++ [fresh.2]) fresh.1.

(** *** The loop of [add_knowledge]

    [knowledge_original] and [knowledge_modified] are two list objects
    during the first round.  The assignment
    [knowledge_original = knowledge_modified] that ends a round makes both
    names denote one list object: [same_list] records that, and every later
    write through [knowledge_modified] is then seen through
    [knowledge_original] too. *)
Record vars := Vars {
  knowledge_original : list loc;
  knowledge_modified : list loc;
  same_list : bool
}.

Definition write_modified (lst : list loc) (v : vars) : vars :=
  Vars (if same_list v then lst else knowledge_original v) lst (same_list v).

(** Lines 254-274, one pass: the accumulator is
    [(new_safes, new_mines, sentences_to_remove)]. *)
Definition resolve_one (h : store) (acc : gset Cell * gset Cell * list loc) (l : loc)
  : gset Cell * gset Cell * list loc :=
  let s := deref h l in
  if bool_decide (Sentence.count s = 0)
  then (Sentence.cells s ∪ acc.1.1, acc.1.2, acc.2 ++ [l])
  else if bool_decide (Sentence.count s = Z.of_nat (size (Sentence.cells s)))
       then (acc.1.1, Sentence.cells s ∪ acc.1.2, acc.2 ++ [l])
       else acc.

Definition resolve (h : store) (ko : list loc) : gset Cell * gset Cell * list loc :=
  foldl (resolve_one h) (∅, ∅, []) ko.

(** Lines 277-282. *)
Definition mark_all (new_safes new_mines : gset Cell) (ai : t) : t :=
  set_fold mark_mine (set_fold mark_safe ai new_safes) new_mines.

(** The test on line 298. *)
Definition strictly_inside (sm so : Sentence.t) : bool :=
  bool_decide (Sentence.cells sm ⊆ Sentence.cells so)
  && negb (bool_decide (Sentence.cells sm = Sentence.cells so)).

(** Lines 303-306. *)
Definition difference (so sm : Sentence.t) : Sentence.t :=
  Sentence.Make (Sentence.cells so ∖ Sentence.cells sm)
                (Sentence.count so - Sentence.count sm).

(** Lines 293-306: the pairs [(sentence_orig, new sentence)], that is
    [old_sentences] zipped with [new_sentences], in the order the nested
    loops find them. *)
Definition derive (h : store) (ko km : list loc) : list (loc * Sentence.t) :=
  lo ← ko;
  lm ← km;
  if strictly_inside (deref h lm) (deref h lo)
  then [(lo, difference (deref h lo) (deref h lm))]
  else [].

(** How a round of the loop ends: an exception escapes, the test on line
    317 succeeds and the loop is left with [knowledge_modified], or the
    assignment on line 321 is made and the loop goes on. *)
Inductive step := Raises (e : exn) | Breaks (km : list loc) | Repeats (km : list loc).

(** Lines 246-286 of a round: the sentences that settle cells are found,
    the cells are marked and the sentences are removed from
    [knowledge_modified].  [None]: a removal raised [ValueError]. *)
Definition resolution (ai : t) (v : vars) : t * option vars :=
  let resolved := resolve (heap ai) (knowledge_original v) in
  let ai := mark_all resolved.1.1 resolved.1.2 ai in
  (ai, (fun km => write_modified km v)
         <$> remove_each (heap ai) resolved.2 (knowledge_modified v)).

(** Lines 288-321 of a round: the differences are built, the sentences of
    [old_sentences] are removed, those of [new_sentences] are appended, and
    the two lists are compared. *)
Definition derivation (ai : t) (v : vars) : t * step :=
  let pairs := derive (heap ai) (knowledge_original v) (knowledge_modified v) in
  let fresh := alloc_all (heap ai) pairs.*2 in
  let ai := set_heap fresh.1 ai in
  match remove_each (heap ai) pairs.*1 (knowledge_modified v) with
  | None => (ai, Raises ValueError)
  | Some km =>
      let v := write_modified km v in
      let v := write_modified (knowledge_modified v ++ fresh.2) v in
      if list_eq (heap ai) (knowledge_modified v) (knowledge_original v)
      then (ai, Breaks (knowledge_modified v))
      else (ai, Repeats (knowledge_modified v))
  end.

(** One round of the [while True] body, lines 246-321. *)
Definition round (ai : t) (v : vars) : t * step :=
  match resolution ai v with
  | (ai, None) => (ai, Raises ValueError)
  | (ai, Some v) => derivation ai v
  end.

(** The [while True] loop, given the number of rounds it may take.
    [None]: the rounds granted did not suffice. *)
Fixpoint loop (fuel : nat) (ai : t) (v : vars) : option (t * outcome) :=
  match fuel with
  | O => None
  | S fuel =>
      match round ai v with
      | (ai, Raises e) => Some (ai, Raised e)
      | (ai, Breaks km) => Some (set_knowledge km ai, Returned)
      | (ai, Repeats km) => loop fuel ai (Vars km km true)
      end
  end.

(** Lines 239-323. *)
Definition closure (fuel : nat) (ai : t) : option (t * outcome) :=
  loop fuel ai (Vars (knowledge ai) (knowledge ai) false).

Definition add_knowledge_within (fuel : nat) (cell : Cell) (count : Z) (ai : t)
  : option (t * outcome) :=
  closure fuel (record_move cell count ai).

(** [add_knowledge]: two rounds always suffice, as the section on the end
    of the loop proves, so the default is never taken. *)
Definition add_knowledge (cell : Cell) (count : Z) (ai : t) : t * outcome :=
  default (ai, Returned) (add_knowledge_within 2 cell count ai).

(** [make_safe_move]; [pick] is the random number from which
    [random.choice] takes its index, which is always below [len(options)].
    With no option [random.choice] raises [IndexError], and the function
    returns [None]. *)
Definition make_safe_move (pick : nat) (ai : t) : option Cell :=
  if bool_decide (safes ai = ∅) then None
  else
    let options := filter (fun element => element ∉ moves_made ai) (elements (safes ai)) in
    match options with
    | [] => None
    | _ :: _ => options !! (pick mod length options)%nat
    end.

(** [make_random_move]; [draws] are the pairs [(y, x)] that the two
    [random.randrange] calls produce, round after round.  The outer [None]:
    the draws given did not end the loop.  [random.randrange] raises
    [ValueError] for a dimension that is not positive; the statements about
    a move that is drawn are made for positive dimensions. *)
Fixpoint make_random_move (draws : list Cell) (ai : t) : option (option Cell) :=
  if bool_decide (Z.of_nat (size (mines ai)) + Z.of_nat (size (safes ai))
                  = height ai * width ai)
  then Some None
  else match draws with
       | [] => None
       | move :: draws =>
           if bool_decide (move ∉ moves_made ai) && bool_decide (move ∉ mines ai)
           then Some (Some move)
           else make_random_move draws ai
       end.

(** *** Sequences of calls *)

Inductive call :=
| AddKnowledge (cell : Cell) (count : Z)
| MakeSafeMove (pick : nat)
| MakeRandomMove (draws : list Cell).

(** The two move functions assign no attribute of [self]. *)
Definition do_call (c : call) (ai : t) : t * outcome :=
  match c with
  | AddKnowledge cell count => add_knowledge cell count ai
  | MakeSafeMove _ | MakeRandomMove _ => (ai, Returned)
  end.

(** Calls in sequence; an exception ends the sequence. *)
Fixpoint run (cs : list call) (ai : t) : t * outcome :=
  match cs with
  | [] => (ai, Returned)
  | c :: cs =>
      match do_call c ai with
      | (ai, Returned) => run cs ai
      | stopped => stopped
      end
  end.

(** The clues are those of the board [b]: every cell handed to
    [add_knowledge] is free of a mine and comes with its [nearby_mines]. *)
Definition truthful (b : Minesweeper.t) (cs : list call) : bool :=
  forallb (fun c => match c with
                    | AddKnowledge cell count =>
                        negb (Minesweeper.is_mine b cell)
                        && bool_decide (count = Minesweeper.nearby_mines b cell)
                    | _ => true
                    end) cs.

(** The knowledge base lists objects of the store. *)
Definition wf (ai : t) : Prop := within (heap ai) (knowledge ai).

(** Nothing ever leaves the three sets of the player. *)
Definition grows (ai ai' : t) : Prop :=
  mines ai ⊆ mines ai' ∧ safes ai ⊆ safes ai' ∧ moves_made ai ⊆ moves_made ai'.

(** What the player believes is true of the board [b]. *)
Definition sound (b : Minesweeper.t) (ai : t) : Prop :=
  height ai = Minesweeper.height b ∧ width ai = Minesweeper.width b ∧
  mines ai ⊆ Minesweeper.mines b ∧
  safes ai ## Minesweeper.mines b ∧
  Forall (Sentence.holds (Minesweeper.mines b)) (heap ai).

(** The dimensions and [moves_made] are those of [ai]. *)
Definition same_frame (ai ai' : t) : Prop :=
  height ai' = height ai ∧ width ai' = width ai ∧ moves_made ai' = moves_made ai.

(** No sentence of the list settles a cell, and none lies strictly inside
    another. *)
Definition settled (h : store) (k : list loc) : Prop :=
  Forall (λ l, Sentence.count (deref h l) ≠ 0
               ∧ Sentence.count (deref h l)
                 ≠ Z.of_nat (size (Sentence.cells (deref h l)))) k
  ∧ Forall (λ lo, Forall (λ lm, strictly_inside (deref h lm) (deref h lo) = false) k) k.

(** Every cell handed to [add_knowledge] is a cell of the board. *)
Definition on_board (h w : Z) (cs : list call) : bool :=
  forallb (λ c, match c with
                | AddKnowledge cell _ => Minesweeper.in_bounds h w cell
                | _ => true
                end) cs.

(** The player knows of no cell outside the board. *)
Definition in_board (h w : Z) (ai : t) : Prop :=
  height ai = h ∧ width ai = w
  ∧ mines ai ⊆ board_cells h w
  ∧ safes ai ⊆ board_cells h w
  ∧ Forall (λ s, Sentence.cells s ⊆ board_cells h w) (heap ai).

End MinesweeperAI.

(** ** The board as the class stores it (class [Minesweeper], all fields)

    [Minesweeper.t] above keeps the set [mines] only.  Here the matrix
    [board] is kept as well, [__init__] fills it from the draws of
    [random.randrange], and [is_mine] and [nearby_mines] read it with
    Python's indexing. *)

Module Board.

Record t := Make {
  height : Z;
  width : Z;
  mines : gset Cell;
  board : list (list bool);
  mines_found : gset Cell
}.

(** [lst[n]] for a Python integer [n]: a negative index counts from the
    end, and [None] stands for [IndexError]. *)
Definition item {A} (lst : list A) (n : Z) : option A :=
  if bool_decide (0 ≤ n) then lst !! Z.to_nat n
  else if bool_decide (- Z.of_nat (length lst) ≤ n)
       then lst !! Z.to_nat (Z.of_nat (length lst) + n)
       else None.

(** [self.board[i][j]] *)
Definition entry (b : t) (c : Cell) : option bool :=
  row ← item (board b) c.1; item row c.2.

(** [is_mine] *)
Definition is_mine (b : t) (cell : Cell) : option bool := entry b cell.

(** One pass of the loop body of [nearby_mines]; [None] stands for
    [IndexError]. *)
Definition tally (b : t) (cell : Cell) (count : option Z) (c : Cell) : option Z :=
  n ← count;
  if bool_decide (c = cell) then Some n
  else if Minesweeper.in_bounds (height b) (width b) c
       then mine ← entry b c; Some (if mine : bool then n + 1 else n)
       else Some n.

Definition nearby_mines (b : t) (cell : Cell) : option Z :=
  foldl (tally b cell) (Some 0) (Minesweeper.window cell).

(** [won] *)
Definition won (b : t) : bool := bool_decide (mines_found b = mines b).

(** Lines 18-23: [height] rows of [width] times [False]. *)
Definition blank (height width : Z) : list (list bool) :=
  replicate (Z.to_nat height) (replicate (Z.to_nat width) false).

(** Lines 30-31, for the indexes [random.randrange] returns. *)
Definition lay (i j : nat) (b : t) : t :=
  Make (height b) (width b) ({[ (Z.of_nat i, Z.of_nat j) ]} ∪ mines b)
       (alter (λ row, <[j := true]> row) i (board b)) (mines_found b).

(** How [__init__] ends: with the board, with the [ValueError] of
    [random.randrange] on an empty range, with the [IndexError] of line 29,
    or not at all on the draws given. *)
Inductive built := Built (b : t) | RangeError | IndexError | Placing.

(** Lines 26-34; [draws] are the pairs [(i, j)] that the two
    [random.randrange] calls return, round after round: naturals, which
    [in_range] below bounds by the dimensions.  Line 29 is modelled for
    every pair of naturals, and raises [IndexError] outside the matrix. *)
Fixpoint place (draws : list (nat * nat)) (target : Z) (b : t) : built :=
  if bool_decide (Z.of_nat (size (mines b)) = target)
  then Built (Make (height b) (width b) (mines b) (board b) ∅)
  else if bool_decide (height b ≤ 0) || bool_decide (width b ≤ 0) then RangeError
  else match draws with
       | [] => Placing
       | (i, j) :: draws =>
           match board b !! i ≫= (.!! j) with
           | None => IndexError
           | Some true => place draws target b
           | Some false => place draws target (lay i j b)
           end
       end.

(** [__init__] *)
Definition init (draws : list (nat * nat)) (height width mines : Z) : built :=
  place draws mines (Make height width ∅ (blank height width) ∅).

(** The board as the player's proofs see it. *)
Definition view (b : t) : Minesweeper.t :=
  Minesweeper.Make (height b) (width b) (mines b).

(** The matrix has the dimensions of the board and is [True] exactly at the
    cells of [mines]. *)
Definition consistent (b : t) : Prop :=
  length (board b) = Z.to_nat (height b)
  ∧ Forall (λ row, length row = Z.to_nat (width b)) (board b)
  ∧ (∀ i j : nat, board b !! i ≫= (.!! j) = Some true
                  ↔ (Z.of_nat i, Z.of_nat j) ∈ mines b)
  ∧ ∀ c, c ∈ mines b → 0 ≤ c.1 < height b ∧ 0 ≤ c.2 < width b.

(** What the two [random.randrange] calls of a round can return. *)
Definition in_range (height width : Z) (d : nat * nat) : bool :=
  bool_decide (Z.of_nat d.1 < height) && bool_decide (Z.of_nat d.2 < width).

(** The cell of a pair of indexes. *)
Definition cell_of (d : nat * nat) : Cell := (Z.of_nat d.1, Z.of_nat d.2).

(** The clues are those of the board [b]: for every cell handed to
    [add_knowledge], [is_mine] returned [False] and the count is what
    [nearby_mines] returned. *)
Definition clues (b : t) (cs : list MinesweeperAI.call) : bool :=
  forallb (λ c, match c with
                | MinesweeperAI.AddKnowledge cell count =>
                    bool_decide (is_mine b cell = Some false)
                    && bool_decide (nearby_mines b cell = Some count)
                | _ => true
                end) cs.

End Board.

(** ** Boards and games used as examples *)

Module Games.

Import MinesweeperAI.

(** A 2x3 board whose only mine is at [(0, 1)], and three moves on it. *)
Definition board_a : Minesweeper.t := Minesweeper.Make 2 3 {[ (0, 1) ]}.
Definition opening_a : list call := [AddKnowledge (0, 0) 1; AddKnowledge (1, 0) 1].
Definition game_a : list call := opening_a ++ [AddKnowledge (0, 2) 1].

(** A 3x3 board with mines at [(2, 1)] and [(2, 2)], and three moves on it. *)
Definition board_b : Minesweeper.t := Minesweeper.Make 3 3 {[ (2, 1); (2, 2) ]}.
Definition game_b : list call :=
  [AddKnowledge (1, 0) 1; AddKnowledge (1, 2) 2; AddKnowledge (2, 0) 1].

(** The knowledge base [{A, B, C} = 1], [{A, B} = 1] for the cells
    [A = (0, 0)], [B = (0, 1)], [C = (0, 2)] of a 1x3 board. *)
Definition abc : t :=
  Make 1 3 ∅ ∅ ∅ [0%nat; 1%nat]
       [Sentence.Make {[ (0, 0); (0, 1); (0, 2) ]} 1; Sentence.Make {[ (0, 0); (0, 1) ]} 1].

(** Clues that no 1x3 board gives: both neighbours of [(0, 1)] are mines,
    and then [(0, 0)] is reported as revealed. *)
Definition game_c : list call := [AddKnowledge (0, 1) 2; AddKnowledge (0, 0) 0].

(** A 1x3 board with its mine at [(0, 2)]. *)
Definition board_d : Minesweeper.t := Minesweeper.Make 1 3 {[ (0, 2) ]}.
Definition game_d : list call :=
  [AddKnowledge (0, 1) 1; MakeSafeMove 0; AddKnowledge (0, 0) 0; MakeRandomMove [(0, 2)]].

(** The board [board_b] as [__init__] builds it when [random.randrange]
    draws [(2, 1)] twice and then [(2, 2)]. *)
Definition draws_b : list (nat * nat) := [(2, 1); (2, 1); (2, 2)]%nat.
Definition built_b : Board.t :=
  Board.Make 3 3 {[ (2, 1); (2, 2) ]}
             [[false; false; false]; [false; false; false]; [false; true; true]] ∅.

(** The player after the first move of [game_d]. *)
Definition opening_d : t := (run [AddKnowledge (0, 1) 1] (init 1 3)).1.

End Games.

(** * Sentences *)

Section sentence_facts.

Implicit Types (s : Sentence.t) (c : Cell).

(** C6: [known_mines] returns the cells when the count is their number and
    the empty set otherwise; [known_safes] returns the cells when the count
    is zero and the empty set otherwise. *)
Theorem known_resolution s :
  Sentence.known_mines s
    = (if decide (Sentence.count s = Z.of_nat (size (Sentence.cells s)))
       then Sentence.cells s else ∅)
  ∧ Sentence.known_safes s
    = (if decide (Sentence.count s = 0) then Sentence.cells s else ∅).
Proof.
  unfold Sentence.known_mines, Sentence.known_safes.
  split; repeat case_bool_decide; repeat case_decide; congruence.
Qed.

Lemma mark_mine_absent c s : c ∉ Sentence.cells s → Sentence.mark_mine c s = s.
Proof. intros Hc. unfold Sentence.mark_mine. rewrite bool_decide_false; done. Qed.

Lemma mark_safe_absent c s : c ∉ Sentence.cells s → Sentence.mark_safe c s = s.
Proof. intros Hc. unfold Sentence.mark_safe. rewrite bool_decide_false; done. Qed.

Lemma mark_mine_removes c s : c ∉ Sentence.cells (Sentence.mark_mine c s).
Proof.
  unfold Sentence.mark_mine.
  destruct (bool_decide_reflect (c ∈ Sentence.cells s)); simpl; [|done].
  rewrite elem_of_difference, elem_of_singleton. tauto.
Qed.

Lemma mark_safe_removes c s : c ∉ Sentence.cells (Sentence.mark_safe c s).
Proof.
  unfold Sentence.mark_safe.
  destruct (bool_decide_reflect (c ∈ Sentence.cells s)); simpl; [|done].
  rewrite elem_of_difference, elem_of_singleton. tauto.
Qed.

Lemma mark_mine_twice c s :
  Sentence.mark_mine c (Sentence.mark_mine c s) = Sentence.mark_mine c s.
Proof. apply mark_mine_absent, mark_mine_removes. Qed.

Lemma mark_safe_twice c s :
  Sentence.mark_safe c (Sentence.mark_safe c s) = Sentence.mark_safe c s.
Proof. apply mark_safe_absent, mark_safe_removes. Qed.

Lemma mark_safe_count c s : Sentence.count (Sentence.mark_safe c s) = Sentence.count s.
Proof. unfold Sentence.mark_safe. by destruct (bool_decide _). Qed.

(** C9: marking the same cell twice is marking it once, for mines and for
    safes, and marking a cell that the sentence does not hold changes
    nothing. *)
Theorem reduction_idempotent c s :
  Sentence.mark_mine c (Sentence.mark_mine c s) = Sentence.mark_mine c s
  ∧ Sentence.mark_safe c (Sentence.mark_safe c s) = Sentence.mark_safe c s
  ∧ (c ∉ Sentence.cells s →
     Sentence.mark_mine c s = s ∧ Sentence.mark_safe c s = s).
Proof.
  split_and!.
  - apply mark_mine_twice.
  - apply mark_safe_twice.
  - intros H. split; [by apply mark_mine_absent | by apply mark_safe_absent].
Qed.

Lemma reduction_idempotent_example :
  let s := Sentence.Make {[ (0, 0); (0, 1) ]} 1 in
  ((0, 2) ∉ Sentence.cells s)
  ∧ Sentence.mark_mine (0, 1) (Sentence.mark_mine (0, 1) s) = Sentence.mark_mine (0, 1) s
  ∧ Sentence.mark_mine (0, 2) s = s ∧ Sentence.mark_safe (0, 2) s = s.
Proof.
  cbv zeta.
  assert ((0, 2) ∉ Sentence.cells (Sentence.Make {[ (0, 0); (0, 1) ]} 1)) as Habsent.
  { apply (bool_decide_unpack _). vm_compute. exact I. }
  split; [exact Habsent|]. split.
  - exact (proj1 (reduction_idempotent (0, 1) _)).
  - exact (proj2 (proj2 (reduction_idempotent (0, 2) _)) Habsent).
Defined.

End sentence_facts.

(** * The store *)

Section store_facts.

Implicit Types (h : store) (l : loc) (k : list loc) (f : Sentence.t → Sentence.t).

Lemma deref_alter f h x l :
  deref (alter f x h) l
  = if decide (x = l ∧ (x < length h)%nat) then f (deref h l) else deref h l.
Proof.
  unfold deref. rewrite list_lookup_total_alter.
  repeat case_decide; intuition congruence.
Qed.

Lemma update_all_length f k h : length (MinesweeperAI.update_all f k h) = length h.
Proof.
  unfold MinesweeperAI.update_all. revert h.
  induction k as [|x k IH]; intros h; simpl; [done|].
  by rewrite IH, length_alter.
Qed.

(** What [for sentence in self.knowledge: sentence.f(cell)] does to each
    object, for an idempotent [f]. *)
Lemma deref_update_all f k h l :
  (∀ s, f (f s) = f s) →
  deref (MinesweeperAI.update_all f k h) l
  = if decide (l ∈ k ∧ (l < length h)%nat) then f (deref h l) else deref h l.
Proof.
  intros Hf. unfold MinesweeperAI.update_all. revert h.
  induction k as [|x k IH]; intros h.
  - destruct (decide _) as [[H _]|]; [by apply elem_of_nil in H | done].
  - cbn [foldl]. rewrite IH, length_alter, deref_alter.
    destruct (decide (x = l ∧ (x < length h)%nat)) as [[-> Hx]|Hx].
    + rewrite (decide_True (P := l ∈ l :: k ∧ _)) by (split; [left | done]).
      destruct (decide _); by rewrite ?Hf.
    + destruct (decide (l ∈ k ∧ (l < length h)%nat)) as [[Hk Hl]|Hk].
      * by rewrite (decide_True (P := l ∈ x :: k ∧ _)) by (split; [by right | done]).
      * rewrite (decide_False (P := l ∈ x :: k ∧ _)); [done|].
        intros [[->|Hin]%elem_of_cons Hl]; [by apply Hx | by apply Hk].
Qed.

Lemma update_all_Forall (P : Sentence.t → Prop) f k h :
  (∀ s, P s → P (f s)) → Forall P h → Forall P (MinesweeperAI.update_all f k h).
Proof.
  intros Hf. unfold MinesweeperAI.update_all. revert h.
  induction k as [|x k IH]; intros h Hh; simpl; [done|].
  apply IH, Forall_alter; auto.
Qed.

End store_facts.

(** * Marking a cell *)

Section frame.

Import MinesweeperAI.

(** C10: [mark_mine] adds the cell to [mines] and applies
    [Sentence.mark_mine] to the objects of the knowledge base; [mark_safe]
    adds the cell to [safes] and applies [Sentence.mark_safe] to them, which
    keeps every count.  Nothing else changes. *)
Theorem mark_frame cell ai :
  (let ai' := mark_mine cell ai in
   mines ai' = {[cell]} ∪ mines ai
   ∧ safes ai' = safes ai ∧ moves_made ai' = moves_made ai
   ∧ knowledge ai' = knowledge ai
   ∧ height ai' = height ai ∧ width ai' = width ai
   ∧ length (heap ai') = length (heap ai)
   ∧ ∀ l, deref (heap ai') l
          = if decide (l ∈ knowledge ai ∧ (l < length (heap ai))%nat)
            then Sentence.mark_mine cell (deref (heap ai) l)
            else deref (heap ai) l)
  ∧ (let ai' := mark_safe cell ai in
     safes ai' = {[cell]} ∪ safes ai
     ∧ mines ai' = mines ai ∧ moves_made ai' = moves_made ai
     ∧ knowledge ai' = knowledge ai
     ∧ height ai' = height ai ∧ width ai' = width ai
     ∧ length (heap ai') = length (heap ai)
     ∧ (∀ l, deref (heap ai') l
             = if decide (l ∈ knowledge ai ∧ (l < length (heap ai))%nat)
               then Sentence.mark_safe cell (deref (heap ai) l)
               else deref (heap ai) l)
     ∧ ∀ l, Sentence.count (deref (heap ai') l) = Sentence.count (deref (heap ai) l)).
Proof.
  split; cbv zeta; simpl; split_and!; try done.
  - apply update_all_length.
  - intros l. apply deref_update_all. intros s. apply mark_mine_twice.
  - apply update_all_length.
  - intros l. apply deref_update_all. intros s. apply mark_safe_twice.
  - intros l. rewrite deref_update_all by (intros s; apply mark_safe_twice).
    destruct (decide _); [apply mark_safe_count | done].
Qed.

End frame.

(** * The sentence of a move *)

Section neighbours.

Import MinesweeperAI.

Lemma elem_of_window (c cell : Cell) :
  c ∈ Minesweeper.window cell ↔ Z.abs (c.1 - cell.1) ≤ 1 ∧ Z.abs (c.2 - cell.2) ≤ 1.
Proof.
  destruct c as [x y], cell as [i j]. unfold Minesweeper.window, Minesweeper.around.
  cbn. rewrite !elem_of_cons, elem_of_nil. split.
  - intros H. repeat (destruct H as [H|H]); try done; injection H as -> ->; lia.
  - intros [Hx Hy].
    assert (x = i - 1 ∨ x = i ∨ x = i + 1) as Hx' by lia.
    assert (y = j - 1 ∨ y = j ∨ y = j + 1) as Hy' by lia.
    destruct Hx' as [-> | [-> | ->]], Hy' as [-> | [-> | ->]]; tauto.
Qed.

Lemma NoDup_window (cell : Cell) : NoDup (Minesweeper.window cell).
Proof.
  destruct cell as [i j]. unfold Minesweeper.window, Minesweeper.around. cbn.
  repeat (apply NoDup_cons; split;
          [rewrite ?elem_of_cons, elem_of_nil; intros H;
           repeat (destruct H as [H|H]); try done; injection H; lia|]).
  apply NoDup_nil_2.
Qed.

Lemma in_bounds_spec h w (c : Cell) :
  Minesweeper.in_bounds h w c = true ↔ 0 ≤ c.1 < h ∧ 0 ≤ c.2 < w.
Proof.
  unfold Minesweeper.in_bounds.
  rewrite andb_true_iff, !bool_decide_eq_true. tauto.
Qed.

(** The neighbours are the cells of the board at Chebyshev distance 1. *)
Lemma elem_of_neighbors ai (cell c : Cell) :
  c ∈ neighbors ai cell
  ↔ (0 ≤ c.1 < height ai ∧ 0 ≤ c.2 < width ai)
    ∧ Z.max (Z.abs (c.1 - cell.1)) (Z.abs (c.2 - cell.2)) = 1.
Proof.
  unfold neighbors.
  rewrite elem_of_list_to_set, list_elem_of_filter, elem_of_window, in_bounds_spec.
  destruct c as [x y], cell as [i j]; simpl.
  split.
  - intros [[Hb Hne] Hd]. split; [exact Hb|].
    assert (x ≠ i ∨ y ≠ j) by (destruct (decide (x = i)); [right|left]; congruence).
    lia.
  - intros [Hb Hd]. split; [split; [done|] | lia].
    intros [= -> ->]. lia.
Qed.

(** What the loop of lines 226-231 computes. *)
Lemma scan_neighbors (ai : t) (count : Z) (X : gset Cell) :
  set_fold (scan_neighbor ai) (∅, count) X
  = (filter (λ c, c ∈ safes ai ∨ c ∈ mines ai) X,
     count - Z.of_nat (size (filter (λ c, (c ∉ safes ai) ∧ c ∈ mines ai) X))).
Proof.
  apply (set_fold_ind_L
           (λ r Y, r = (filter (λ c, c ∈ safes ai ∨ c ∈ mines ai) Y,
                            count - Z.of_nat (size (filter (λ c, (c ∉ safes ai) ∧ c ∈ mines ai) Y))))).
  - rewrite !filter_empty_L by apply _. rewrite size_empty. f_equal. lia.
  - intros x Y r Hx ->. unfold scan_neighbor. simpl.
    rewrite !filter_union_L by apply _.
    destruct (bool_decide_reflect (x ∈ safes ai)) as [Hs|Hs].
    + rewrite filter_singleton_True_L by first [apply _ | tauto].
      rewrite filter_singleton_False_L by first [apply _ | tauto].
      by rewrite (left_id_L ∅ (∪)).
    + destruct (bool_decide_reflect (x ∈ mines ai)) as [Hm|Hm].
      * rewrite !filter_singleton_True_L by first [apply _ | tauto].
        rewrite (size_union {[x]} (filter (λ c, (c ∉ safes ai) ∧ c ∈ mines ai) Y)).
        { rewrite size_singleton. f_equal. lia. }
        intros y ->%elem_of_singleton [_ Hy]%elem_of_filter. done.
      * rewrite !filter_singleton_False_L by first [apply _ | tauto].
        by rewrite !(left_id_L ∅ (∪)).
Qed.

Lemma cell_not_neighbor ai (cell : Cell) : cell ∉ neighbors ai cell.
Proof. rewrite elem_of_neighbors. intros [_ H]. rewrite !Z.sub_diag in H. done. Qed.

(** C5, amended: the new sentence holds the cells of the board at Chebyshev
    distance 1 from [cell] that are in neither [safes] nor [mines]; its
    count is [count] less the number of neighbours that are in [mines] and
    not in [safes]; and it is appended to the knowledge base whatever its
    cell set is. *)
Theorem new_sentence_appended cell (count : Z) ai :
  let ai' := record_move cell count ai in
  let fresh := length (heap ai) in
  (∀ c, c ∈ neighbors ai cell
        ↔ (0 ≤ c.1 < height ai ∧ 0 ≤ c.2 < width ai)
          ∧ Z.max (Z.abs (c.1 - cell.1)) (Z.abs (c.2 - cell.2)) = 1)
  ∧ knowledge ai' = knowledge ai ++ [fresh]
  ∧ Sentence.cells (deref (heap ai') fresh) = neighbors ai cell ∖ (safes ai ∪ mines ai)
  ∧ Sentence.count (deref (heap ai') fresh)
    = count - Z.of_nat (size (filter (λ c, (c ∉ safes ai) ∧ c ∈ mines ai)
                                     (neighbors ai cell))).
Proof.
  cbv zeta. split; [intros c; apply elem_of_neighbors|].
  pose proof (cell_not_neighbor ai cell) as Hcell.
  unfold record_move, alloc, new_sentence, deref. simpl.
  rewrite update_all_length. split; [done|].
  rewrite lookup_total_app_r by (rewrite update_all_length; lia).
  rewrite update_all_length, Nat.sub_diag. simpl.
  rewrite scan_neighbors. simpl.
  change (neighbors (Make _ _ _ _ _ _ _) cell) with (neighbors ai cell).
  split.
  - apply set_eq. intros c. rewrite !elem_of_difference, elem_of_filter, !elem_of_union,
      elem_of_singleton. split; [tauto|]. intros [Hc Hn]. split; [done|].
    intros [[[->|?]|?] _]; tauto.
  - do 3 f_equal. apply set_eq. intros c.
    rewrite !elem_of_filter, elem_of_union, elem_of_singleton.
    split; [tauto|]. intros [[Hs Hm] Hc]. split_and!; [|done..].
    intros [->|?]; tauto.
Qed.

End neighbours.

(** * The loop ends *)

Section termination.

Import MinesweeperAI.

Lemma same_or_eq_refl h l : same_or_eq h l l = true.
Proof. unfold same_or_eq. by rewrite bool_decide_eq_true_2. Qed.

Lemma list_eq_refl h lst : list_eq h lst lst = true.
Proof. induction lst as [|l lst IH]; simpl; [done|]. by rewrite same_or_eq_refl. Qed.

(** Once both names denote one list, the test on line 317 compares the list
    with itself: the round ends the loop unless it raises. *)
Lemma round_same_list ai km :
  ∀ km', (round ai (Vars km km true)).2 ≠ Repeats km'.
Proof.
  intros km'. unfold round, resolution, derivation, write_modified. simpl.
  destruct (remove_each _ _ km) as [km1|]; simpl; [|done].
  destruct (remove_each _ _ km1) as [km2|]; simpl; [|done].
  by rewrite list_eq_refl.
Qed.

Lemma loop_same_list fuel ai km :
  loop (S fuel) ai (Vars km km true) = loop 1 ai (Vars km km true).
Proof.
  simpl. pose proof (round_same_list ai km) as H.
  destruct (round ai (Vars km km true)) as [ai' [e|km'|km']]; simpl in *; try done.
  by destruct (H km').
Qed.

Lemma loop_two_rounds fuel ai ko km :
  loop (S (S fuel)) ai (Vars ko km false) = loop 2 ai (Vars ko km false)
  ∧ is_Some (loop 2 ai (Vars ko km false)).
Proof.
  cbn [loop].
  destruct (round ai (Vars ko km false)) as [ai' [e|km'|km']]; [by eauto..|].
  pose proof (round_same_list ai' km') as H.
  change (match round ai' (Vars km' km' true) with
          | (ai0, Raises e) => Some (ai0, Raised e)
          | (ai0, Breaks km0) => Some (set_knowledge km0 ai0, Returned)
          | (ai0, Repeats km0) => loop fuel ai0 (Vars km0 km0 true)
          end) with (loop (S fuel) ai' (Vars km' km' true)).
  rewrite loop_same_list. simpl.
  destruct (round ai' (Vars km' km' true)) as [ai'' [e|km''|km'']]; simpl in *; eauto.
  by destruct (H km'').
Qed.

(** Every call of [add_knowledge] ends within two rounds of its loop,
    whatever the size of the board: with two rounds or more granted, the
    call yields the result [add_knowledge], reached by the [break] of a
    round whose test succeeded or by an exception of [list.remove], and a
    second round never asks for a third. *)
Theorem two_rounds_suffice fuel cell count ai :
  add_knowledge_within (S (S fuel)) cell count ai = Some (add_knowledge cell count ai)
  ∧ ∀ ai' km km', (round ai' (Vars km km true)).2 ≠ Repeats km'.
Proof.
  split; [|intros ai' km km'; apply round_same_list].
  unfold add_knowledge, add_knowledge_within, closure.
  destruct (loop_two_rounds fuel (record_move cell count ai)
              (knowledge (record_move cell count ai))
              (knowledge (record_move cell count ai))) as [-> [r ->]].
  done.
Qed.

End termination.

(** * The sets only grow *)

Section growth.

Import MinesweeperAI.

#[local] Instance grows_preorder : PreOrder grows.
Proof.
  split.
  - intros ai. by unfold grows.
  - intros a b c (?&?&?) (?&?&?). unfold grows. split_and!; by etrans.
Qed.

Lemma mark_safe_grows c ai : grows ai (mark_safe c ai).
Proof. unfold grows; simpl. split_and!; [done| |done]. apply union_subseteq_r. Qed.

Lemma mark_mine_grows c ai : grows ai (mark_mine c ai).
Proof. unfold grows; simpl. split_and!; [|done..]. apply union_subseteq_r. Qed.

Lemma set_fold_grows (f : Cell → t → t) (X : gset Cell) ai :
  (∀ c ai, grows ai (f c ai)) → grows ai (set_fold f ai X).
Proof.
  intros Hf. apply (set_fold_ind_L (λ r _, grows ai r)); [done|].
  intros c Y r _ Hr. by etrans.
Qed.

Lemma mark_all_grows S M ai : grows ai (mark_all S M ai).
Proof.
  unfold mark_all. etrans; apply set_fold_grows;
    [apply mark_safe_grows | apply mark_mine_grows].
Qed.

Lemma round_grows ai v : grows ai (round ai v).1.
Proof.
  unfold round, resolution, derivation.
  set (resolved := resolve _ _).
  pose proof (mark_all_grows resolved.1.1 resolved.1.2 ai) as H.
  destruct (remove_each _ _ _); simpl; [|done].
  destruct (remove_each _ _ _); [|done].
  by destruct (list_eq _ _ _).
Qed.

Lemma loop_grows fuel ai v r : loop fuel ai v = Some r → grows ai r.1.
Proof.
  revert ai v. induction fuel as [|fuel IH]; intros ai v; simpl; [done|].
  pose proof (round_grows ai v) as H.
  destruct (round ai v) as [ai' [e|km|km]]; simpl in H.
  - by intros [= <-].
  - by intros [= <-].
  - intros Hr. etrans; [done|]. by eapply IH.
Qed.

Lemma record_move_grows cell count ai : grows ai (record_move cell count ai).
Proof.
  unfold grows, record_move; simpl. split_and!; [done|..]; apply union_subseteq_r.
Qed.

Lemma add_knowledge_grows cell count ai : grows ai (add_knowledge cell count ai).1.
Proof.
  unfold add_knowledge, add_knowledge_within, closure.
  destruct (loop _ _ _) as [r|] eqn:Hr; simpl; [|done].
  etrans; [apply record_move_grows|]. by eapply loop_grows.
Qed.

Lemma run_grows cs ai : grows ai (run cs ai).1.
Proof.
  revert ai. induction cs as [|c cs IH]; intros ai; simpl; [done|].
  assert (grows ai (do_call c ai).1) as H.
  { destruct c; simpl; [apply add_knowledge_grows|done..]. }
  destruct (do_call c ai) as [ai' [|e]]; simpl in *; [|done].
  etrans; [done|apply IH].
Qed.

(** C8: whatever the calls, every cell of [mines] and of [safes] before
    them is still there after them, also when a call ends in an
    exception. *)
Theorem knowledge_monotone cs ai :
  mines ai ⊆ mines (run cs ai).1 ∧ safes ai ⊆ safes (run cs ai).1.
Proof. destruct (run_grows cs ai) as (?&?&?). done. Qed.

End growth.

(** * Truthful clues *)

Section soundness.

Import MinesweeperAI.

Variable b : Minesweeper.t.
Local Abbreviation B := (Minesweeper.mines b).

Implicit Types (s : Sentence.t) (c : Cell) (ai : t) (h : store).

Lemma holds_empty : Sentence.holds B (Sentence.Make ∅ 0).
Proof. unfold Sentence.holds. simpl. by rewrite (left_absorb_L ∅ (∩)), size_empty. Qed.

Lemma deref_holds h l : Forall (Sentence.holds B) h → Sentence.holds B (deref h l).
Proof.
  intros Hh. unfold deref. rewrite list_lookup_total_alt.
  destruct (h !! l) as [s|] eqn:Hl; simpl; [|apply holds_empty].
  by eapply Forall_lookup_1.
Qed.

Lemma mark_safe_holds c s :
  c ∉ B → Sentence.holds B s → Sentence.holds B (Sentence.mark_safe c s).
Proof.
  intros Hc Hs. unfold Sentence.mark_safe.
  destruct (bool_decide _); [|done].
  unfold Sentence.holds in *. simpl. rewrite <- Hs. do 2 f_equal.
  apply set_eq. intros x. rewrite !elem_of_intersection, elem_of_difference, elem_of_singleton.
  split; [tauto|]. intros [? ?]. split_and!; [done| |done]. by intros ->.
Qed.

Lemma mark_mine_holds c s :
  c ∈ B → Sentence.holds B s → Sentence.holds B (Sentence.mark_mine c s).
Proof.
  intros Hc Hs. unfold Sentence.mark_mine.
  destruct (bool_decide_reflect (c ∈ Sentence.cells s)) as [Hin|]; [|done].
  unfold Sentence.holds in *. simpl. rewrite <- Hs.
  assert (Sentence.cells s ∩ B = {[c]} ∪ (Sentence.cells s ∖ {[c]}) ∩ B) as ->.
  { apply set_eq. intros x.
    rewrite elem_of_union, !elem_of_intersection, elem_of_difference, elem_of_singleton.
    destruct (decide (x = c)) as [->|]; tauto. }
  rewrite (size_union {[c]} ((Sentence.cells s ∖ {[c]}) ∩ B)); [rewrite size_singleton; lia|].
  intros x. rewrite elem_of_singleton, elem_of_intersection, elem_of_difference,
    elem_of_singleton. tauto.
Qed.

Lemma difference_holds so sm :
  Sentence.cells sm ⊆ Sentence.cells so →
  Sentence.holds B so → Sentence.holds B sm → Sentence.holds B (difference so sm).
Proof.
  intros Hsub Hso Hsm. unfold Sentence.holds, difference in *. simpl.
  rewrite <- Hso, <- Hsm.
  assert (Sentence.cells so ∩ B
          = (Sentence.cells sm ∩ B) ∪ ((Sentence.cells so ∖ Sentence.cells sm) ∩ B)) as ->.
  { apply set_eq. intros x.
    rewrite elem_of_union, !elem_of_intersection, elem_of_difference.
    specialize (Hsub x). destruct (decide (x ∈ Sentence.cells sm)); tauto. }
  rewrite (size_union (Sentence.cells sm ∩ B) ((Sentence.cells so ∖ Sentence.cells sm) ∩ B)); [lia|].
  intros x. rewrite !elem_of_intersection, elem_of_difference. tauto.
Qed.

Lemma safe_when_zero s :
  Sentence.holds B s → Sentence.count s = 0 → Sentence.cells s ## B.
Proof.
  unfold Sentence.holds. intros Hs H0. rewrite H0 in Hs.
  assert (size (Sentence.cells s ∩ B) = 0%nat) as Hz by lia.
  apply size_empty_inv in Hz. intros x ? ?.
  apply (not_elem_of_empty (C:=gset Cell) x), Hz. by apply elem_of_intersection.
Qed.

Lemma mines_when_full s :
  Sentence.holds B s → Sentence.count s = Z.of_nat (size (Sentence.cells s)) →
  Sentence.cells s ⊆ B.
Proof.
  unfold Sentence.holds. intros Hs Hn.
  assert (Sentence.cells s ∩ B = Sentence.cells s) as Heq.
  { apply set_subseteq_size_eq; [apply intersection_subseteq_l | lia]. }
  rewrite <- Heq. apply intersection_subseteq_r.
Qed.

Lemma mark_safe_sound c ai : c ∉ B → sound b ai → sound b (mark_safe c ai).
Proof.
  intros Hc (Hh & Hw & Hm & Hs & Hk). unfold sound. simpl. split_and!; try done.
  - intros x [->%elem_of_singleton|Hx]%elem_of_union; [done | by apply Hs].
  - apply update_all_Forall; [|done]. intros s. by apply mark_safe_holds.
Qed.

Lemma mark_mine_sound c ai : c ∈ B → sound b ai → sound b (mark_mine c ai).
Proof.
  intros Hc (Hh & Hw & Hm & Hs & Hk). unfold sound. simpl. split_and!; try done.
  - intros x [->%elem_of_singleton|Hx]%elem_of_union; [done | by apply Hm].
  - apply update_all_Forall; [|done]. intros s. by apply mark_mine_holds.
Qed.

Lemma mark_all_sound (S M : gset Cell) ai :
  S ## B → M ⊆ B → sound b ai → sound b (mark_all S M ai).
Proof.
  intros HS HM Hai. unfold mark_all.
  assert (sound b (set_fold mark_safe ai S)) as Hsafe.
  { revert HS. apply (set_fold_ind_L (λ r X, X ## B → sound b r)); [done|].
    intros c X r _ IH HX. apply mark_safe_sound.
    - intros Hc. apply (HX c); [|done]. apply elem_of_union_l. by apply elem_of_singleton.
    - apply IH. intros x Hx. apply HX. by apply elem_of_union_r. }
  revert HM. apply (set_fold_ind_L (λ r X, X ⊆ B → sound b r)); [done|].
  intros c X r _ IH HX. apply mark_mine_sound.
  - apply HX. apply elem_of_union_l. by apply elem_of_singleton.
  - apply IH. intros x Hx. apply HX. by apply elem_of_union_r.
Qed.

Lemma resolve_one_sound h (acc : gset Cell * gset Cell * list loc) l :
  Forall (Sentence.holds B) h →
  acc.1.1 ## B ∧ acc.1.2 ⊆ B →
  (resolve_one h acc l).1.1 ## B ∧ (resolve_one h acc l).1.2 ⊆ B.
Proof.
  intros Hh [HS HM]. pose proof (deref_holds h l Hh) as Hl. unfold resolve_one.
  destruct (bool_decide_reflect (Sentence.count (deref h l) = 0)) as [H0|H0]; simpl.
  { split; [|done]. apply disjoint_union_l. split; [by apply safe_when_zero | done]. }
  destruct (bool_decide_reflect
              (Sentence.count (deref h l)
               = Z.of_nat (size (Sentence.cells (deref h l))))) as [Hn|Hn]; simpl.
  { split; [done|]. apply union_subseteq. split; [by apply mines_when_full | done]. }
  done.
Qed.

Lemma resolve_sound h ko :
  Forall (Sentence.holds B) h →
  (resolve h ko).1.1 ## B ∧ (resolve h ko).1.2 ⊆ B.
Proof.
  intros Hh. unfold resolve.
  assert (∀ acc : gset Cell * gset Cell * list loc,
            acc.1.1 ## B ∧ acc.1.2 ⊆ B →
            (foldl (resolve_one h) acc ko).1.1 ## B
            ∧ (foldl (resolve_one h) acc ko).1.2 ⊆ B) as Hgen.
  { induction ko as [|l ko IH]; intros acc Hacc; simpl; [done|].
    by apply IH, resolve_one_sound. }
  apply Hgen; simpl. split; [apply disjoint_empty_l | apply empty_subseteq].
Qed.

Lemma derive_holds h ko km :
  Forall (Sentence.holds B) h → Forall (Sentence.holds B) (derive h ko km).*2.
Proof.
  intros Hh. apply Forall_forall. intros s Hs.
  apply list_elem_of_fmap in Hs as ([lo s'] & -> & Hs). simpl.
  unfold derive in Hs.
  apply list_elem_of_bind in Hs as (lo' & Hs & _).
  apply list_elem_of_bind in Hs as (lm & Hs & _).
  destruct (strictly_inside (deref h lm) (deref h lo')) eqn:Hin;
    [|by apply elem_of_nil in Hs].
  apply list_elem_of_singleton in Hs as [= -> ->].
  unfold strictly_inside in Hin. apply andb_true_iff in Hin as [Hsub _].
  apply bool_decide_eq_true in Hsub.
  apply difference_holds; [done | by apply deref_holds..].
Qed.

Lemma round_sound ai v : sound b ai → sound b (round ai v).1.
Proof.
  intros Hai. unfold round, resolution, derivation.
  set (resolved := resolve _ _).
  assert (sound b (mark_all resolved.1.1 resolved.1.2 ai)) as Hmarked.
  { destruct (resolve_sound (heap ai) (knowledge_original v)) as [HS HM];
      [apply Hai|]. by apply mark_all_sound. }
  destruct (remove_each _ _ _); simpl; [|done].
  set (pairs := derive _ _ _).
  assert (sound b (set_heap (alloc_all (heap (mark_all resolved.1.1 resolved.1.2 ai))
                                       pairs.*2).1
                            (mark_all resolved.1.1 resolved.1.2 ai))) as Hfresh.
  { destruct Hmarked as (Hh & Hw & Hm & Hs & Hk). unfold sound. simpl.
    split_and!; try done. apply Forall_app. split; [done|]. by apply derive_holds. }
  destruct (remove_each _ _ _); [|done].
  by destruct (list_eq _ _ _).
Qed.

Lemma loop_sound fuel ai v r : loop fuel ai v = Some r → sound b ai → sound b r.1.
Proof.
  revert ai v. induction fuel as [|fuel IH]; intros ai v; simpl; [done|].
  pose proof (round_sound ai v) as H.
  destruct (round ai v) as [ai' [e|km|km]]; simpl in H.
  - intros [= <-]. done.
  - intros [= <-] Hai. apply H in Hai. apply Hai.
  - intros Hr Hai. eapply IH; eauto.
Qed.

Lemma tally_count cell (l : list Cell) (n : Z) :
  foldl (Minesweeper.tally b cell) n l
  = n + Z.of_nat (length (filter (λ c, c ≠ cell
                                       ∧ Minesweeper.in_bounds (Minesweeper.height b)
                                                               (Minesweeper.width b) c = true
                                       ∧ c ∈ B) l)).
Proof.
  revert n. induction l as [|c l IH]; intros n; simpl; [lia|].
  rewrite IH, filter_cons. unfold Minesweeper.tally, Minesweeper.is_mine.
  destruct (bool_decide_reflect (c = cell)) as [->|Hc].
  { rewrite decide_False by tauto. done. }
  destruct (Minesweeper.in_bounds _ _ c) eqn:Hb; simpl.
  - destruct (bool_decide_reflect (c ∈ Minesweeper.mines b)) as [Hm|Hm].
    + rewrite decide_True by done. simpl. lia.
    + rewrite decide_False by tauto. done.
  - rewrite decide_False; [done|]. intros (_ & ? & _). done.
Qed.

Lemma nearby_mines_neighbors ai cell :
  height ai = Minesweeper.height b → width ai = Minesweeper.width b →
  Minesweeper.nearby_mines b cell = Z.of_nat (size (neighbors ai cell ∩ B)).
Proof.
  intros Hh Hw. unfold Minesweeper.nearby_mines. rewrite tally_count, Z.add_0_l.
  f_equal. rewrite <- (size_list_to_set (C:=gset Cell)).
  - f_equal. apply set_eq. intros c. unfold neighbors.
    rewrite elem_of_intersection, !elem_of_list_to_set, !list_elem_of_filter, Hh, Hw.
    tauto.
  - apply NoDup_filter, NoDup_window.
Qed.

Lemma new_sentence_holds ai cell :
  sound b ai → Sentence.holds B (new_sentence ai cell (Minesweeper.nearby_mines b cell)).
Proof.
  intros (Hh & Hw & Hm & Hs & _). unfold new_sentence, Sentence.holds.
  rewrite scan_neighbors. simpl. rewrite (nearby_mines_neighbors ai) by done.
  set (nb := neighbors ai cell).
  set (known := filter (λ c, c ∈ safes ai ∨ c ∈ mines ai) nb).
  set (counted := filter (λ c, (c ∉ safes ai) ∧ c ∈ mines ai) nb).
  assert (nb ∩ B = counted ∪ (nb ∖ known) ∩ B) as ->.
  { apply set_eq. intros c. unfold known, counted.
    rewrite elem_of_union, !elem_of_intersection, elem_of_difference, !elem_of_filter.
    specialize (Hm c). specialize (Hs c).
    destruct (decide (c ∈ mines ai)); tauto. }
  rewrite (size_union counted ((nb ∖ known) ∩ B)); [lia|].
  intros c. unfold known, counted.
  rewrite elem_of_intersection, elem_of_difference, !elem_of_filter. tauto.
Qed.

Lemma record_move_sound cell ai :
  cell ∉ B → sound b ai →
  sound b (record_move cell (Minesweeper.nearby_mines b cell) ai).
Proof.
  intros Hc Hai. unfold record_move.
  set (ai1 := Make _ _ ({[cell]} ∪ moves_made ai) _ _ _ _).
  assert (sound b (mark_safe cell ai1)) as Hmarked by by apply mark_safe_sound.
  pose proof (new_sentence_holds _ cell Hmarked) as Hnew.
  destruct Hmarked as (Hh & Hw & Hm & Hs & Hk). unfold sound, alloc. simpl.
  split_and!; try done. apply Forall_app. split; [done|]. by apply Forall_singleton.
Qed.

Lemma add_knowledge_sound cell ai :
  cell ∉ B → sound b ai →
  sound b (add_knowledge cell (Minesweeper.nearby_mines b cell) ai).1.
Proof.
  intros Hc Hai. unfold add_knowledge, add_knowledge_within, closure.
  destruct (loop _ _ _) as [r|] eqn:Hr; simpl; [|done].
  eapply loop_sound; [done|]. by apply record_move_sound.
Qed.

Lemma run_sound cs ai : truthful b cs = true → sound b ai → sound b (run cs ai).1.
Proof.
  revert ai. induction cs as [|c cs IH]; intros ai Hcs Hai; simpl; [done|].
  simpl in Hcs. apply andb_true_iff in Hcs as [Hc Hcs].
  assert (sound b (do_call c ai).1) as H.
  { destruct c as [cell count| |]; simpl; [|done..].
    apply andb_true_iff in Hc as [Hcell ->%bool_decide_eq_true].
    apply add_knowledge_sound; [|done].
    unfold Minesweeper.is_mine in Hcell. apply negb_true_iff in Hcell.
    by apply bool_decide_eq_false in Hcell. }
  destruct (do_call c ai) as [ai' [|e]]; simpl in *; [|done].
  by apply IH.
Qed.

Lemma init_sound : sound b (init (Minesweeper.height b) (Minesweeper.width b)).
Proof.
  unfold sound, init. simpl. by split_and!.
Qed.

(** C7, amended: when every cell handed to [add_knowledge] is free of a
    mine on one board and comes with that board's count of neighbouring
    mines, no cell is in both [mines] and [safes] after any sequence of
    calls from a fresh player. *)
Theorem truthful_play_keeps_sets_disjoint cs :
  truthful b cs = true →
  let ai := (run cs (init (Minesweeper.height b) (Minesweeper.width b))).1 in
  mines ai ∩ safes ai = ∅.
Proof.
  intros Hcs ai. destruct (run_sound cs _ Hcs init_sound) as (_ & _ & Hm & Hs & _).
  apply set_eq. intros c. rewrite elem_of_intersection.
  split; [|by intros ?%not_elem_of_empty]. intros [Hc1 Hc2].
  destruct (Hs c Hc2 (Hm c Hc1)).
Qed.

End soundness.

(** * Sentences replaced by differences *)

Section replacement.

Import MinesweeperAI.

Implicit Types (h : store) (l x : loc) (s : Sentence.t).

Lemma sentence_eq_true s1 s2 : Sentence.eq s1 s2 = true ↔ s1 = s2.
Proof.
  unfold Sentence.eq. rewrite andb_true_iff, !bool_decide_eq_true.
  destruct s1, s2; simpl. split; [by intros [-> ->] | by intros [= -> ->]].
Qed.

Lemma same_or_eq_true h a b : same_or_eq h a b = true ↔ deref h a = deref h b.
Proof.
  unfold same_or_eq. rewrite orb_true_iff, bool_decide_eq_true, sentence_eq_true.
  split; [by intros [->|?] | by right].
Qed.

Lemma occurrences_cons h s l lst :
  occurrences h s (l :: lst)
  = ((if decide (deref h l = s) then 1 else 0) + occurrences h s lst)%nat.
Proof. unfold occurrences. rewrite filter_cons. by destruct (decide _). Qed.

Lemma occurrences_app h s (k1 k2 : list loc) :
  occurrences h s (k1 ++ k2) = (occurrences h s k1 + occurrences h s k2)%nat.
Proof. unfold occurrences. by rewrite filter_app, length_app. Qed.

Lemma occurrences_zero h s lst l :
  occurrences h s lst = 0%nat → l ∈ lst → deref h l ≠ s.
Proof.
  unfold occurrences. intros H0 Hl Hs.
  assert (l ∈ filter (λ l, deref h l = s) lst) as Hin by by apply list_elem_of_filter.
  apply length_zero_iff_nil in H0. rewrite H0 in Hin. by apply elem_of_nil in Hin.
Qed.

Lemma list_remove_occurrences h x lst lst' s :
  list_remove h x lst = Some lst' →
  occurrences h s lst
  = ((if decide (deref h x = s) then 1 else 0) + occurrences h s lst')%nat.
Proof.
  revert lst'. induction lst as [|y lst IH]; intros lst'; simpl; [done|].
  destruct (same_or_eq h y x) eqn:Hyx.
  - intros [= <-]. apply same_or_eq_true in Hyx. rewrite occurrences_cons, Hyx. done.
  - destruct (list_remove h x lst) as [rest|]; simpl; [|done]. intros [= <-].
    rewrite !occurrences_cons, (IH rest) by done. lia.
Qed.

Lemma list_remove_sublist h x lst lst' : list_remove h x lst = Some lst' → sublist lst' lst.
Proof.
  revert lst'. induction lst as [|y lst IH]; intros lst'; simpl; [done|].
  destruct (same_or_eq h y x).
  - intros [= <-]. by apply sublist_cons.
  - destruct (list_remove h x lst) as [rest|]; simpl; [|done]. intros [= <-].
    apply sublist_skip. by apply IH.
Qed.

Lemma remove_each_occurrences h xs lst lst' s :
  remove_each h xs lst = Some lst' →
  occurrences h s lst = (occurrences h s xs + occurrences h s lst')%nat.
Proof.
  revert lst. induction xs as [|x xs IH]; intros lst; simpl.
  - by intros [= <-].
  - destruct (list_remove h x lst) as [rest|] eqn:Hx; [|done]. intros Hxs.
    rewrite (list_remove_occurrences _ _ _ _ s Hx), (IH _ Hxs), occurrences_cons. lia.
Qed.

Lemma remove_each_sublist h xs lst lst' : remove_each h xs lst = Some lst' → sublist lst' lst.
Proof.
  revert lst. induction xs as [|x xs IH]; intros lst; simpl.
  - by intros [= <-].
  - destruct (list_remove h x lst) as [rest|] eqn:Hx; [|done]. intros Hxs.
    etrans; [by apply IH | by eapply list_remove_sublist].
Qed.

Lemma sublist_occurrences h s (k1 k2 : list loc) :
  sublist k1 k2 → (occurrences h s k1 ≤ occurrences h s k2)%nat.
Proof.
  induction 1 as [|x k1 k2 _ IH|x k1 k2 _ IH]; rewrite ?occurrences_cons; [done|lia|lia].
Qed.

Lemma deref_app_old h (ss : list Sentence.t) l :
  (l < length h)%nat → deref (h ++ ss) l = deref h l.
Proof. intros Hl. unfold deref. by rewrite lookup_total_app_l. Qed.

Lemma occurrences_app_old h (ss : list Sentence.t) s (lst : list loc) :
  Forall (λ l, (l < length h)%nat) lst →
  occurrences (h ++ ss) s lst = occurrences h s lst.
Proof.
  induction 1 as [|l lst Hl _ IH]; [done|].
  by rewrite !occurrences_cons, IH, deref_app_old.
Qed.

(** Every sentence of [ko] in the state [s] is listed in [old_sentences]
    once per sentence of [km] that lies strictly inside it. *)
Lemma derive_occurrences h ko km s lm :
  lm ∈ km → strictly_inside (deref h lm) s = true →
  (occurrences h s ko ≤ occurrences h s (derive h ko km).*1)%nat.
Proof.
  intros Hlm Hin. unfold derive.
  induction ko as [|lo ko IH]; [done|].
  rewrite bind_cons, fmap_app, occurrences_app, occurrences_cons.
  destruct (decide (deref h lo = s)) as [Hs|Hs]; [|lia].
  enough (1 ≤ occurrences h s
                (lm0 ← km;
                 if strictly_inside (deref h lm0) (deref h lo)
                 then [(lo, difference (deref h lo) (deref h lm0))] else []).*1)%nat by lia.
  clear IH. induction km as [|y km IH]; [by apply elem_of_nil in Hlm|].
  rewrite bind_cons, fmap_app, occurrences_app.
  apply elem_of_cons in Hlm as [<-|Hlm].
  - rewrite Hs, Hin. simpl. rewrite occurrences_cons, decide_True by done. lia.
  - specialize (IH Hlm). lia.
Qed.

Lemma derive_elem_of h ko km lo lm :
  lo ∈ ko → lm ∈ km → strictly_inside (deref h lm) (deref h lo) = true →
  (lo, difference (deref h lo) (deref h lm)) ∈ derive h ko km.
Proof.
  intros Hlo Hlm Hin. unfold derive.
  apply list_elem_of_bind. exists lo. split; [|done].
  apply list_elem_of_bind. exists lm. split; [|done].
  rewrite Hin. by apply list_elem_of_singleton.
Qed.

Lemma alloc_all_elem_of h (ss : list Sentence.t) s :
  s ∈ ss →
  ∃ l, l ∈ (alloc_all h ss).2 ∧ (length h ≤ l)%nat ∧ deref (alloc_all h ss).1 l = s.
Proof.
  intros (i & Hi)%list_elem_of_lookup. exists (length h + i)%nat. simpl.
  pose proof (lookup_lt_Some _ _ _ Hi) as Hlt. split_and!.
  - apply elem_of_seq. lia.
  - lia.
  - unfold deref. rewrite lookup_total_app_r by lia.
    replace (length h + i - length h)%nat with i by lia.
    by apply list_lookup_total_correct.
Qed.

Lemma mark_all_length S M ai : length (heap (mark_all S M ai)) = length (heap ai).
Proof.
  unfold mark_all.
  assert (∀ (f : Cell → t → t) (X : gset Cell) ai0,
            (∀ c a, length (heap (f c a)) = length (heap a)) →
            length (heap (set_fold f ai0 X)) = length (heap ai0)) as Hfold.
  { intros f X ai0 Hf.
    apply (set_fold_ind_L (λ r _, length (heap r) = length (heap ai0))); [done|].
    intros c Y r _ Hr. by rewrite Hf. }
  rewrite !Hfold; [done|intros c a; simpl; apply update_all_length..].
Qed.

(** Where a round starts with the two names on equal lists of objects of
    the store, as both entries of the loop do, its second half starts with
    [knowledge_modified] a sublist of [knowledge_original], and with objects
    of the store. *)
Lemma resolution_sublist ai k ali v :
  within (heap ai) k →
  (resolution ai (Vars k k ali)).2 = Some v →
  within (heap (resolution ai (Vars k k ali)).1) (knowledge_original v)
  ∧ sublist (knowledge_modified v) (knowledge_original v).
Proof.
  intros Hk. unfold resolution, within. simpl. rewrite mark_all_length.
  destruct (remove_each _ _ k) as [km1|] eqn:Hrem; simpl; [|done].
  intros [= <-]. unfold write_modified. simpl.
  pose proof (remove_each_sublist _ _ _ _ Hrem) as Hsub.
  destruct ali; simpl; split; try done.
  apply Forall_forall. intros l Hl. apply (proj1 (Forall_forall _ _) Hk).
  by eapply elem_of_sublist.
Qed.

(** What lines 288-321 do when they raise nothing: every sentence [A] of
    [knowledge_original] with a sentence [B] of [knowledge_modified]
    strictly inside it has its difference with [B] in the resulting list,
    as a fresh object, and no object of before the round that is left in the
    list is in the state of [A]. *)
Theorem derivation_replaces ai v km' lo lm :
  within (heap ai) (knowledge_original v) →
  sublist (knowledge_modified v) (knowledge_original v) →
  (derivation ai v).2 = Breaks km' ∨ (derivation ai v).2 = Repeats km' →
  lo ∈ knowledge_original v → lm ∈ knowledge_modified v →
  strictly_inside (deref (heap ai) lm) (deref (heap ai) lo) = true →
  (∃ l, l ∈ km' ∧ (length (heap ai) ≤ l)%nat
        ∧ deref (heap (derivation ai v).1) l
          = difference (deref (heap ai) lo) (deref (heap ai) lm))
  ∧ ∀ l, l ∈ km' → (l < length (heap ai))%nat →
         deref (heap (derivation ai v).1) l ≠ deref (heap ai) lo.
Proof.
  intros Hko Hsub Hok Hlo Hlm Hin.
  assert (Forall (λ l, (l < length (heap ai))%nat) (knowledge_modified v)) as Hkm.
  { apply Forall_forall. intros l Hl. eapply (proj1 (Forall_forall _ _) Hko).
    by eapply elem_of_sublist. }
  revert Hok. unfold derivation.
  set (pairs := derive (heap ai) (knowledge_original v) (knowledge_modified v)).
  destruct (remove_each _ _ _) as [km2|] eqn:Hrem; [|by intros [?|?]].
  simpl in Hrem. simpl.
  assert (∀ c : bool,
            (if c then (set_heap (heap ai ++ pairs.*2) ai,
                        Breaks (km2 ++ seq (length (heap ai)) (length pairs.*2)))
             else (set_heap (heap ai ++ pairs.*2) ai,
                   Repeats (km2 ++ seq (length (heap ai)) (length pairs.*2))))
            = (set_heap (heap ai ++ pairs.*2) ai,
               if c then Breaks (km2 ++ seq (length (heap ai)) (length pairs.*2))
               else Repeats (km2 ++ seq (length (heap ai)) (length pairs.*2)))) as Hif
      by by intros [].
  rewrite Hif. simpl. clear Hif. intros Hkm'.
  assert (km' = km2 ++ seq (length (heap ai)) (length pairs.*2)) as ->.
  { destruct (list_eq _ _ _), Hkm' as [Hkm'|Hkm']; congruence. }
  clear Hkm'. split.
  - destruct (alloc_all_elem_of (heap ai) pairs.*2
                (difference (deref (heap ai) lo) (deref (heap ai) lm)))
      as (l & Hl & Hfresh & Hd).
    { apply list_elem_of_fmap. eexists (_, _). split; [done|].
      by apply derive_elem_of. }
    exists l. split_and!; [|done..]. apply elem_of_app. by right.
  - intros l Hl Hold.
    apply elem_of_app in Hl as [Hl|Hl]; [|apply elem_of_seq in Hl; lia].
    apply (occurrences_zero _ _ km2); [|done].
    pose proof (remove_each_occurrences _ _ _ _ (deref (heap ai) lo) Hrem) as Hocc.
    rewrite (occurrences_app_old _ _ _ (knowledge_modified v)) in Hocc by done.
    rewrite (occurrences_app_old _ _ _ pairs.*1) in Hocc.
    + pose proof (derive_occurrences (heap ai) (knowledge_original v)
                    (knowledge_modified v) _ lm Hlm Hin) as Hmany.
      pose proof (sublist_occurrences (heap ai) (deref (heap ai) lo) _ _ Hsub) as Hfew.
      fold pairs in Hmany. lia.
    + apply Forall_forall. intros x (p & -> & Hp)%list_elem_of_fmap.
      unfold pairs, derive in Hp.
      apply list_elem_of_bind in Hp as (lo' & Hp & Hlo').
      apply list_elem_of_bind in Hp as (lm' & Hp & _).
      destruct (strictly_inside (deref (heap ai) lm') (deref (heap ai) lo'));
        [|by apply elem_of_nil in Hp].
      apply list_elem_of_singleton in Hp as ->. simpl.
      by apply (proj1 (Forall_forall _ _) Hko).
Qed.

End replacement.

(** * The lists hold objects of the store *)

Section objects.

Import MinesweeperAI.

Lemma within_sublist h (k1 k2 : list loc) : sublist k1 k2 → within h k2 → within h k1.
Proof.
  intros Hsub Hk. apply Forall_forall. intros l Hl.
  apply (proj1 (Forall_forall _ _) Hk). by eapply elem_of_sublist.
Qed.

Lemma within_app_heap h (ss : list Sentence.t) (k : list loc) :
  within h k → within (h ++ ss) k.
Proof.
  intros Hk. eapply Forall_impl; [exact Hk|]. intros l Hl. simpl in *.
  rewrite length_app. lia.
Qed.

Lemma within_longer h h' (k : list loc) :
  (length h ≤ length h')%nat → within h k → within h' k.
Proof. intros Hlen Hk. eapply Forall_impl; [exact Hk|]. intros l Hl. simpl in *. lia. Qed.

Lemma within_alloc_all h (ss : list Sentence.t) :
  within (alloc_all h ss).1 (alloc_all h ss).2.
Proof.
  apply Forall_forall. intros l Hl. simpl in *.
  apply elem_of_seq in Hl. rewrite length_app. lia.
Qed.

Lemma mark_all_knowledge S M ai : knowledge (mark_all S M ai) = knowledge ai.
Proof.
  unfold mark_all.
  assert (∀ (f : Cell → t → t) (X : gset Cell) ai0,
            (∀ c a, knowledge (f c a) = knowledge a) →
            knowledge (set_fold f ai0 X) = knowledge ai0) as Hfold.
  { intros f X ai0 Hf.
    apply (set_fold_ind_L (λ r _, knowledge r = knowledge ai0)); [done|].
    intros c Y r _ Hr. by rewrite Hf. }
  by rewrite !Hfold.
Qed.

(** A round leaves [self.knowledge] alone, never shortens the store, and
    ends with a list of objects of the store. *)
Lemma round_objects ai v :
  within (heap ai) (knowledge_original v) → within (heap ai) (knowledge_modified v) →
  knowledge (round ai v).1 = knowledge ai
  ∧ (length (heap ai) ≤ length (heap (round ai v).1))%nat
  ∧ match (round ai v).2 with
    | Raises _ => True
    | Breaks km | Repeats km => within (heap (round ai v).1) km
    end.
Proof.
  intros Hko Hkm. unfold round, resolution, derivation.
  set (resolved := resolve _ _).
  pose proof (mark_all_length resolved.1.1 resolved.1.2 ai) as Hlen.
  pose proof (mark_all_knowledge resolved.1.1 resolved.1.2 ai) as Hknow.
  destruct (remove_each _ _ (knowledge_modified v)) as [km1|] eqn:Hrem1; simpl;
    [|split_and!; [done|lia|done]].
  set (marked := mark_all _ _ ai) in *.
  set (pairs := derive _ _ _).
  destruct (remove_each _ pairs.*1 _) as [km2|] eqn:Hrem2; simpl;
    [|rewrite length_app; split_and!; [done|lia|done]].
  assert (within (heap marked ++ pairs.*2)
                 (km2 ++ seq (length (heap marked)) (length pairs.*2))) as Hnew.
  { apply Forall_app. split; [|apply (within_alloc_all (heap marked))].
    apply within_app_heap.
    apply (within_sublist _ _ _ (remove_each_sublist _ _ _ _ Hrem2)).
    unfold write_modified. simpl.
    apply (within_sublist _ _ _ (remove_each_sublist _ _ _ _ Hrem1)).
    unfold within. by rewrite Hlen. }
  destruct (list_eq _ _ _); simpl; rewrite length_app; split_and!; try done; lia.
Qed.

Lemma loop_wf fuel ai v r :
  wf ai →
  within (heap ai) (knowledge_original v) → within (heap ai) (knowledge_modified v) →
  loop fuel ai v = Some r → wf r.1.
Proof.
  revert ai v. induction fuel as [|fuel IH]; intros ai v Hai Hko Hkm; simpl; [done|].
  destruct (round_objects ai v Hko Hkm) as (Hknow & Hlen & Hres).
  destruct (round ai v) as [ai' [e|km|km]]; simpl in *.
  - intros [= <-]. simpl. unfold wf. rewrite Hknow. by eapply within_longer.
  - by intros [= <-].
  - apply IH; [|done..]. unfold wf. rewrite Hknow. by eapply within_longer.
Qed.

Lemma record_move_wf cell count ai : wf ai → wf (record_move cell count ai).
Proof.
  intros Hai. unfold wf, record_move, alloc. simpl.
  apply Forall_app. split.
  - eapply within_longer; [|exact Hai]. rewrite length_app, update_all_length. lia.
  - apply Forall_singleton. rewrite length_app. simpl. lia.
Qed.

Lemma add_knowledge_wf cell count ai : wf ai → wf (add_knowledge cell count ai).1.
Proof.
  intros Hai. unfold add_knowledge, add_knowledge_within, closure.
  destruct (loop _ _ _) as [r|] eqn:Hr; simpl; [|done].
  pose proof (record_move_wf cell count ai Hai) as Hwf.
  exact (loop_wf _ _ (Vars _ _ false) _ Hwf Hwf Hwf Hr).
Qed.

(** In every state a game reaches, the knowledge base lists objects of the
    store. *)
Lemma run_wf cs ai : wf ai → wf (run cs ai).1.
Proof.
  revert ai. induction cs as [|c cs IH]; intros ai Hai; simpl; [done|].
  assert (wf (do_call c ai).1) as H.
  { destruct c; simpl; [by apply add_knowledge_wf|done..]. }
  destruct (do_call c ai) as [ai' [|e]]; simpl in *; [|done].
  by apply IH.
Qed.

End objects.

(** Closed facts are settled by evaluating the embedding. *)
Ltac by_evaluation :=
  lazymatch goal with
  | |- @eq _ _ _ => vm_compute; reflexivity
  | |- _ => apply (bool_decide_unpack _); vm_compute; exact I
  end.

(** * The closure on concrete games *)

Section games.

Import MinesweeperAI Games.

(** Subset inference at work: from [{A, B, C} = 1] and [{A, B} = 1] the loop
    derives [{C} = 0] in its first round and marks [C] safe in its second. *)
Lemma abc_first_round :
  let r := round abc (Vars (knowledge abc) (knowledge abc) false) in
  r.2 = Repeats [1%nat; 2%nat]
  ∧ deref (heap r.1) 2 = Sentence.Make {[ (0, 2) ]} 0.
Proof. cbv zeta. split_and!; by_evaluation. Qed.

Lemma abc_closure :
  (snd <$> closure 2 abc) = Some Returned
  ∧ (knowledge ∘ fst <$> closure 2 abc) = Some [1%nat]
  ∧ bool_decide ((0, 2) ∈ safes (default abc (fst <$> closure 2 abc))) = true.
Proof. split_and!; by_evaluation. Qed.

(** The example again, through the general statement. *)
Lemma derivation_replaces_example :
  let v := Vars [0%nat; 1%nat] [0%nat; 1%nat] false in
  (derivation abc v).2 = Repeats [1%nat; 2%nat]
  ∧ strictly_inside (deref (heap abc) 1) (deref (heap abc) 0) = true
  ∧ (∃ l, l ∈ [1%nat; 2%nat] ∧ (length (heap abc) ≤ l)%nat
        ∧ deref (heap (derivation abc v).1) l
          = difference (deref (heap abc) 0) (deref (heap abc) 1))
  ∧ ∀ l, l ∈ [1%nat; 2%nat] → (l < length (heap abc))%nat →
         deref (heap (derivation abc v).1) l ≠ deref (heap abc) 0.
Proof.
  cbv zeta.
  assert ((derivation abc (Vars [0%nat; 1%nat] [0%nat; 1%nat] false)).2
          = Repeats [1%nat; 2%nat]) as Hstep by (vm_compute; reflexivity).
  assert (strictly_inside (deref (heap abc) 1) (deref (heap abc) 0) = true) as Hin
      by (vm_compute; reflexivity).
  split; [exact Hstep|]. split; [exact Hin|].
  apply (derivation_replaces abc (Vars [0%nat; 1%nat] [0%nat; 1%nat] false)
           [1%nat; 2%nat] 0%nat 1%nat).
  - repeat constructor; simpl; lia.
  - reflexivity.
  - right. exact Hstep.
  - simpl. apply elem_of_cons. by left.
  - simpl. apply elem_of_cons. right. apply elem_of_cons. by left.
  - exact Hin.
Defined.

(** C3: on the board [board_a] the third move makes [add_knowledge] raise
    [ValueError]: the new sentence strictly contains the cells of two
    sentences of the knowledge base, so line 310 removes it twice. *)
Theorem add_knowledge_raises :
  truthful board_a game_a = true
  ∧ (run game_a (init 2 3)).2 = Raised ValueError.
Proof. split; by_evaluation. Qed.

(** C4: the loop of the third move of [game_a] reaches no round whose test
    succeeds and no [break]: its first round raises [ValueError] on line
    310, so however many rounds are granted the loop is left by the
    exception, and the call does not return. *)
Theorem loop_left_by_exception :
  let before := record_move (0, 2) 1 (run opening_a (init 2 3)).1 in
  let v := Vars (knowledge before) (knowledge before) false in
  truthful board_a game_a = true
  ∧ (run opening_a (init 2 3)).2 = Returned
  ∧ (round before v).2 = Raises ValueError
  ∧ (∀ fuel, snd <$> loop (S fuel) before v = Some (Raised ValueError))
  ∧ (add_knowledge (0, 2) 1 (run opening_a (init 2 3)).1).2 = Raised ValueError.
Proof.
  cbv zeta.
  set (before := record_move (0, 2) 1 (run opening_a (init 2 3)).1).
  set (v := Vars (knowledge before) (knowledge before) false).
  assert ((round before v).2 = Raises ValueError) as Hround by by_evaluation.
  split_and!; [by_evaluation|by_evaluation|exact Hround| |by_evaluation].
  intros fuel. cbn [loop].
  destruct (round before v) as [ai' [e|km|km]]; simpl in Hround; [|done..].
  by destruct e.
Qed.

(** C1: before the loop of the third move of [game_a], sentence 0 lies
    strictly inside sentence 2, yet the loop neither derives their difference
    [{(1, 2)} = 0] nor replaces sentence 2: it raises, the knowledge base is
    left as it was and [(1, 2)] is not marked safe. *)
Theorem double_subset_not_derived :
  let before := record_move (0, 2) 1 (run opening_a (init 2 3)).1 in
  let after := (run game_a (init 2 3)).1 in
  knowledge before = [0%nat; 1%nat; 2%nat]
  ∧ deref (heap before) 0 = Sentence.Make {[ (0, 1); (1, 1) ]} 1
  ∧ deref (heap before) 2 = Sentence.Make {[ (0, 1); (1, 1); (1, 2) ]} 1
  ∧ strictly_inside (deref (heap before) 0) (deref (heap before) 2) = true
  ∧ closure 2 before = Some (after, Raised ValueError)
  ∧ knowledge after = [0%nat; 1%nat; 2%nat]
  ∧ deref (heap after) 2 = Sentence.Make {[ (0, 1); (1, 1); (1, 2) ]} 1
  ∧ bool_decide ((1, 2) ∈ safes after) = false.
Proof. cbv zeta. split_and!; by_evaluation. Qed.

(** C2: on the board [board_b] the third move returns with the sentence
    [{(0, 1), (0, 2), (2, 2)} = 1] in the knowledge base although [(0, 1)]
    has just been marked safe: the sentence was derived in the first round
    and [mark_safe] only visits the objects of [self.knowledge]. *)
Theorem stale_sentence_after_return :
  let ai := (run game_b (init 3 3)).1 in
  truthful board_b game_b = true
  ∧ (run game_b (init 3 3)).2 = Returned
  ∧ 4%nat ∈ knowledge ai
  ∧ deref (heap ai) 4 = Sentence.Make {[ (0, 1); (0, 2); (2, 2) ]} 1
  ∧ (0, 1) ∈ safes ai.
Proof. cbv zeta. split_and!; by_evaluation. Qed.

(** C5, as stated, fails: on a 1x1 board the cell has no neighbour, and the
    sentence with no cell is appended all the same. *)
Lemma empty_sentence_appended :
  let ai := record_move (0, 0) 0 (init 1 1) in
  knowledge ai = [0%nat] ∧ Sentence.cells (deref (heap ai) 0) = ∅.
Proof. cbv zeta. split; by_evaluation. Qed.

(** C7, as stated, fails: when [add_knowledge] is handed a cell that it has
    inferred to be a mine, the cell ends up in both sets. *)
Lemma revealed_mine_is_marked_safe :
  let ai := (run game_c (init 1 3)).1 in
  (run game_c (init 1 3)).2 = Returned
  ∧ (0, 0) ∈ mines ai ∧ (0, 0) ∈ safes ai.
Proof. cbv zeta. split_and!; by_evaluation. Qed.

(** A game on [board_d] with truthful clues: its two sets are disjoint. *)
Lemma truthful_play_example :
  truthful board_d game_d = true
  ∧ mines (run game_d (init 1 3)).1 ∩ safes (run game_d (init 1 3)).1 = ∅.
Proof.
  assert (truthful board_d game_d = true) as H by (vm_compute; reflexivity).
  split; [exact H|]. exact (truthful_play_keeps_sets_disjoint board_d game_d H).
Defined.

End games.

(** * Choosing a move *)

Section moves.

Import MinesweeperAI.

Lemma make_safe_move_Some pick ai c :
  make_safe_move pick ai = Some c → c ∈ safes ai ∧ c ∉ moves_made ai.
Proof.
  unfold make_safe_move. destruct (bool_decide _); [done|].
  destruct (filter _ _) as [|x options] eqn:Hopt; [done|]. rewrite <- Hopt.
  intros Hc%list_elem_of_lookup_2. apply list_elem_of_filter in Hc as [Hnew Hc].
  by apply elem_of_elements in Hc.
Qed.

(** [make_safe_move] only ever returns a cell of [safes] that is not in
    [moves_made]; whatever [random.choice] draws, it returns [None] exactly
    when every cell of [safes] has been played; and every cell of [safes]
    that has not been played is returned for some draw. *)
Theorem safe_move_is_safe_and_new ai :
  (∀ pick c, make_safe_move pick ai = Some c → c ∈ safes ai ∧ c ∉ moves_made ai)
  ∧ (∀ pick, make_safe_move pick ai = None ↔ safes ai ⊆ moves_made ai)
  ∧ (∀ c, c ∈ safes ai → c ∉ moves_made ai → ∃ pick, make_safe_move pick ai = Some c).
Proof.
  split_and!.
  - intros pick c. apply make_safe_move_Some.
  - intros pick. unfold make_safe_move. split.
    + intros Hnone c Hc. destruct (decide (c ∈ moves_made ai)) as [|Hnew]; [done|].
      exfalso. rewrite bool_decide_false in Hnone.
      2:{ intros Hempty. rewrite Hempty in Hc. by apply not_elem_of_empty in Hc. }
      assert (c ∈ filter (λ element, element ∉ moves_made ai) (elements (safes ai))) as Hin.
      { apply list_elem_of_filter. split; [done|]. by apply elem_of_elements. }
      destruct (filter _ _) as [|x options] eqn:Hopt; [by apply elem_of_nil in Hin|].
      apply lookup_ge_None in Hnone.
      pose proof (Nat.mod_upper_bound pick (length (x :: options))) as Hlt.
      simpl in Hnone, Hlt. lia.
    + intros Hsub. destruct (bool_decide _); [done|].
      destruct (filter _ _) as [|x options] eqn:Hopt; [done|]. exfalso.
      assert (x ∈ filter (λ element, element ∉ moves_made ai) (elements (safes ai))) as Hx
          by (rewrite Hopt; left).
      apply list_elem_of_filter in Hx as [Hnew Hx]. apply Hnew, Hsub.
      by apply elem_of_elements.
  - intros c Hc Hnew. unfold make_safe_move.
    rewrite bool_decide_false.
    2:{ intros Hempty. rewrite Hempty in Hc. by apply not_elem_of_empty in Hc. }
    assert (c ∈ filter (λ element, element ∉ moves_made ai) (elements (safes ai))) as Hin.
    { apply list_elem_of_filter. split; [done|]. by apply elem_of_elements. }
    apply list_elem_of_lookup in Hin as [i Hi]. exists i.
    pose proof (lookup_lt_Some _ _ _ Hi) as Hlt.
    destruct (filter _ _) as [|x options] eqn:Hopt; [done|].
    by rewrite Nat.mod_small.
Qed.

Lemma random_move_none draws ai : make_random_move draws ai = Some None ↔ (Z.of_nat (size (mines ai)) + Z.of_nat (size (safes ai)) = height ai * width ai).
Proof.
  induction draws as [|d draws IH]; simpl;
    destruct (bool_decide_reflect ((Z.of_nat (size (mines ai)) + Z.of_nat (size (safes ai)) = height ai * width ai))) as [Hend|Hend].
  - by split.
  - split; [done|]. intros ?. by destruct Hend.
  - by split.
  - destruct (_ && _); [|done]. split; [done|]. intros ?. by destruct Hend.
Qed.

Lemma random_move_first c draws ai :
  ¬ (Z.of_nat (size (mines ai)) + Z.of_nat (size (safes ai)) = height ai * width ai) → c ∉ moves_made ai → c ∉ mines ai →
  make_random_move (c :: draws) ai = Some (Some c).
Proof.
  intros Hend Hc1 Hc2. simpl.
  rewrite bool_decide_false by done. by rewrite !bool_decide_true by done.
Qed.

(** On a board of positive dimensions [make_random_move] returns a cell
    only if it was drawn, is not in [moves_made] and is not in [mines]; it
    returns [None] exactly when [len(mines) + len(safes)] is
    [height * width]; and otherwise it returns a cell as soon as a cell
    that is in neither set is drawn. *)
Theorem random_move_avoids_mines_and_moves draws ai :
  0 < height ai → 0 < width ai →
  (∀ move, make_random_move draws ai = Some (Some move) →
           move ∈ draws ∧ (move ∉ moves_made ai) ∧ (move ∉ mines ai))
  ∧ (make_random_move draws ai = Some None ↔ (Z.of_nat (size (mines ai)) + Z.of_nat (size (safes ai)) = height ai * width ai))
  ∧ (¬ (Z.of_nat (size (mines ai)) + Z.of_nat (size (safes ai)) = height ai * width ai) →
     ∀ move, move ∈ draws → move ∉ moves_made ai → move ∉ mines ai →
             ∃ move', make_random_move draws ai = Some (Some move')).
Proof.
  intros _ _. induction draws as [|d draws (IH1 & IH2 & IH3)]; simpl.
  - destruct (bool_decide_reflect ((Z.of_nat (size (mines ai)) + Z.of_nat (size (safes ai)) = height ai * width ai))) as [Hend|Hend].
    + split_and!; [done|done|]. intros Hnot. by destruct Hnot.
    + split_and!; [done|split; [done|]|]. { intros ?. by destruct Hend. }
      intros _ move Hmove. by apply elem_of_nil in Hmove.
  - destruct (bool_decide_reflect ((Z.of_nat (size (mines ai)) + Z.of_nat (size (safes ai)) = height ai * width ai))) as [Hend|Hend].
    + split_and!; [done|done|]. intros Hnot. by destruct Hnot.
    + destruct (bool_decide_reflect (d ∉ moves_made ai)) as [Hd1|Hd1]; simpl;
        [destruct (bool_decide_reflect (d ∉ mines ai)) as [Hd2|Hd2]; simpl|].
      * split_and!.
        -- intros move [= <-]. split_and!; [left|done|done].
        -- split; [done|]. intros ?. by destruct Hend.
        -- intros _ move _ _ _. by exists d.
      * split_and!.
        -- intros move Hmove. destruct (IH1 move Hmove) as (?&?&?).
           split_and!; [by right|done|done].
        -- done.
        -- intros _ move [->|Hmove]%elem_of_cons Hm1 Hm2; [done|].
           by apply (IH3 Hend move).
      * split_and!.
        -- intros move Hmove. destruct (IH1 move Hmove) as (?&?&?).
           split_and!; [by right|done|done].
        -- done.
        -- intros _ move [->|Hmove]%elem_of_cons Hm1 Hm2; [done|].
           by apply (IH3 Hend move).
Qed.

Lemma random_move_example :
  0 < height Games.opening_d ∧ 0 < width Games.opening_d
  ∧ ∀ move, make_random_move [(0, 1); (0, 2)] Games.opening_d = Some (Some move) →
            move ∈ [(0, 1); (0, 2)]
            ∧ (move ∉ moves_made Games.opening_d) ∧ (move ∉ mines Games.opening_d).
Proof.
  assert (0 < height Games.opening_d) as H1 by (vm_compute; reflexivity).
  assert (0 < width Games.opening_d) as H2 by (vm_compute; reflexivity).
  split; [exact H1|]. split; [exact H2|].
  exact (proj1 (random_move_avoids_mines_and_moves [(0, 1); (0, 2)] _ H1 H2)).
Defined.

End moves.

(** * The clue of the board *)

Section clue.

Lemma nearby_mines_adjacent b (cell : Cell) :
  Minesweeper.nearby_mines b cell
  = Z.of_nat (size (filter (λ c : Cell,
                              (0 ≤ c.1 < Minesweeper.height b
                               ∧ 0 ≤ c.2 < Minesweeper.width b)
                              ∧ Z.max (Z.abs (c.1 - cell.1)) (Z.abs (c.2 - cell.2)) = 1)
                           (Minesweeper.mines b))).
Proof.
  unfold Minesweeper.nearby_mines. rewrite tally_count, Z.add_0_l.
  f_equal. rewrite <- (size_list_to_set (C:=gset Cell));
    [|apply NoDup_filter, NoDup_window].
  f_equal. apply set_eq. intros c.
  rewrite elem_of_list_to_set, list_elem_of_filter, elem_of_filter, elem_of_window.
  rewrite in_bounds_spec.
  destruct c as [x y], cell as [i j]; simpl. split.
  - intros ((Hne & Hb & Hm) & Hd). split; [split; [done|]|done].
    assert (x ≠ i ∨ y ≠ j) by (destruct (decide (x = i)); [right|left]; congruence).
    lia.
  - intros ((Hb & Hd) & Hm). split; [split; [|done]|lia].
    intros [= -> ->]. lia.
Qed.

(** [nearby_mines] is the number of mines among the cells of the board at
    Chebyshev distance 1 of the cell, the cell itself not counted, and so it
    lies between 0 and 8. *)
Theorem nearby_mines_counts_adjacent_mines b (cell : Cell) :
  Minesweeper.nearby_mines b cell
  = Z.of_nat (size (filter (λ c : Cell,
                              (0 ≤ c.1 < Minesweeper.height b
                               ∧ 0 ≤ c.2 < Minesweeper.width b)
                              ∧ Z.max (Z.abs (c.1 - cell.1)) (Z.abs (c.2 - cell.2)) = 1)
                           (Minesweeper.mines b)))
  ∧ 0 ≤ Minesweeper.nearby_mines b cell ≤ 8.
Proof.
  split; [apply nearby_mines_adjacent|].
  unfold Minesweeper.nearby_mines. rewrite tally_count, Z.add_0_l.
  set (Q := λ c : Cell, c ≠ cell
                        ∧ Minesweeper.in_bounds (Minesweeper.height b)
                                                (Minesweeper.width b) c = true
                        ∧ c ∈ Minesweeper.mines b).
  split; [lia|].
  assert (length (filter Q (Minesweeper.window cell))
          < length (Minesweeper.window cell))%nat as Hlt.
  { apply (length_filter_lt _ _ cell).
    - apply elem_of_window. rewrite !Z.sub_diag. simpl. lia.
    - intros (Hne & _). done. }
  destruct cell as [i j]. simpl in Hlt. lia.
Qed.

End clue.

(** * What truthful clues guarantee *)

Section correctness.

Import MinesweeperAI Games.

Implicit Types (s : Sentence.t) (B : gset Cell).

(** The two rules that read facts off a sentence are sound: when exactly
    [count] cells of the sentence are mines, [known_safes] holds no mine and
    [known_mines] holds mines only. *)
Theorem known_cells_are_right B s :
  Sentence.holds B s →
  Sentence.known_safes s ## B ∧ Sentence.known_mines s ⊆ B.
Proof.
  intros Hs. unfold Sentence.known_safes, Sentence.known_mines. split.
  - destruct (bool_decide_reflect (Sentence.count s = 0)) as [H0|H0];
      [|apply disjoint_empty_l].
    by apply (safe_when_zero (Minesweeper.Make 0 0 B)).
  - destruct (bool_decide_reflect
                (Z.of_nat (size (Sentence.cells s)) = Sentence.count s)) as [Hn|Hn];
      [|apply empty_subseteq].
    by apply (mines_when_full (Minesweeper.Make 0 0 B)).
Qed.

Lemma known_cells_are_right_example :
  let B : gset Cell := {[ (2, 1); (2, 2) ]} in
  let s := Sentence.Make {[ (2, 1); (2, 2) ]} 2 in
  Sentence.holds B s ∧ Sentence.known_safes s ## B ∧ Sentence.known_mines s ⊆ B.
Proof.
  cbv zeta.
  assert (Sentence.holds {[ (2, 1); (2, 2) ]} (Sentence.Make {[ (2, 1); (2, 2) ]} 2)) as H
      by (vm_compute; reflexivity).
  split; [exact H|]. exact (known_cells_are_right _ _ H).
Defined.

(** Reducing a sentence keeps it true when the cell is what it is marked
    as: [mark_mine] for a mine of the board, [mark_safe] for a cell free of
    a mine. *)
Theorem reductions_keep_truth B (c : Cell) s :
  Sentence.holds B s →
  (c ∈ B → Sentence.holds B (Sentence.mark_mine c s))
  ∧ (c ∉ B → Sentence.holds B (Sentence.mark_safe c s)).
Proof.
  intros Hs. split; intros Hc.
  - by apply (mark_mine_holds (Minesweeper.Make 0 0 B)).
  - by apply (mark_safe_holds (Minesweeper.Make 0 0 B)).
Qed.

Lemma reductions_keep_truth_example :
  let B : gset Cell := {[ (2, 1); (2, 2) ]} in
  let s := Sentence.Make {[ (1, 1); (2, 1) ]} 1 in
  Sentence.holds B s
  ∧ ((2, 1) ∈ B → Sentence.holds B (Sentence.mark_mine (2, 1) s))
  ∧ ((2, 1) ∉ B → Sentence.holds B (Sentence.mark_safe (2, 1) s)).
Proof.
  cbv zeta.
  assert (Sentence.holds {[ (2, 1); (2, 2) ]} (Sentence.Make {[ (1, 1); (2, 1) ]} 1)) as H
      by (vm_compute; reflexivity).
  split; [exact H|]. exact (reductions_keep_truth _ (2, 1) _ H).
Defined.

(** A reduction with the wrong kind of cell falsifies a true sentence: the
    hypotheses on the cell cannot be dropped. *)
Lemma wrong_reduction_breaks_truth :
  let B : gset Cell := {[ (2, 1); (2, 2) ]} in
  let s := Sentence.Make {[ (1, 1); (2, 1) ]} 1 in
  Sentence.holds B s
  ∧ Sentence.count (Sentence.mark_safe (2, 1) s) = 1
  ∧ Z.of_nat (size (Sentence.cells (Sentence.mark_safe (2, 1) s) ∩ B)) = 0.
Proof. cbv zeta. split_and!; vm_compute; reflexivity. Qed.

(** The subset rule of lines 298-306 is sound: when the cells of [sm] are
    cells of [so] and both sentences are true, so is their difference. *)
Theorem subset_rule_keeps_truth B so sm :
  Sentence.cells sm ⊆ Sentence.cells so →
  Sentence.holds B so → Sentence.holds B sm →
  Sentence.holds B (difference so sm).
Proof. apply (difference_holds (Minesweeper.Make 0 0 B)). Qed.

Lemma subset_rule_keeps_truth_example :
  let B : gset Cell := {[ (2, 1); (2, 2) ]} in
  let so := Sentence.Make {[ (0, 0); (0, 1); (1, 1); (2, 1) ]} 1 in
  let sm := Sentence.Make {[ (1, 1); (2, 1) ]} 1 in
  Sentence.cells sm ⊆ Sentence.cells so
  ∧ Sentence.holds B so ∧ Sentence.holds B sm
  ∧ Sentence.holds B (difference so sm).
Proof.
  cbv zeta.
  assert (Sentence.cells (Sentence.Make {[ (1, 1); (2, 1) ]} 1)
          ⊆ Sentence.cells (Sentence.Make {[ (0, 0); (0, 1); (1, 1); (2, 1) ]} 1)) as H1
      by (apply (bool_decide_unpack _); vm_compute; exact I).
  assert (Sentence.holds {[ (2, 1); (2, 2) ]}
            (Sentence.Make {[ (0, 0); (0, 1); (1, 1); (2, 1) ]} 1)) as H2
      by (vm_compute; reflexivity).
  assert (Sentence.holds {[ (2, 1); (2, 2) ]} (Sentence.Make {[ (1, 1); (2, 1) ]} 1)) as H3
      by (vm_compute; reflexivity).
  split_and!; [exact H1|exact H2|exact H3|].
  exact (subset_rule_keeps_truth _ _ _ H1 H2 H3).
Defined.

(** With truthful clues the player is never wrong: every cell of [mines] is
    a mine of the board, no cell of [safes] is, and [make_safe_move] never
    returns a mine. *)
Theorem truthful_play_is_never_wrong b cs :
  truthful b cs = true →
  let ai := (run cs (init (Minesweeper.height b) (Minesweeper.width b))).1 in
  mines ai ⊆ Minesweeper.mines b
  ∧ safes ai ## Minesweeper.mines b
  ∧ ∀ pick c, make_safe_move pick ai = Some c → Minesweeper.is_mine b c = false.
Proof.
  intros Hcs ai.
  destruct (run_sound b cs _ Hcs (init_sound b)) as (_ & _ & Hm & Hs & _).
  split_and!; [done|done|].
  intros pick c [Hc _]%make_safe_move_Some.
  apply bool_decide_eq_false. intros Hmine. by apply (Hs c).
Qed.

Lemma truthful_play_is_never_wrong_example :
  let ai := (run game_b (init 3 3)).1 in
  truthful board_b game_b = true
  ∧ mines ai ⊆ Minesweeper.mines board_b
  ∧ safes ai ## Minesweeper.mines board_b
  ∧ ∀ pick c, make_safe_move pick ai = Some c → Minesweeper.is_mine board_b c = false.
Proof.
  cbv zeta.
  assert (truthful board_b game_b = true) as H by (vm_compute; reflexivity).
  split; [exact H|]. exact (truthful_play_is_never_wrong board_b game_b H).
Defined.

(** With truthful clues every sentence of the knowledge base is true of the
    board, so its count lies between 0 and the number of its cells. *)
Theorem truthful_play_keeps_sentences_true b cs :
  truthful b cs = true →
  let ai := (run cs (init (Minesweeper.height b) (Minesweeper.width b))).1 in
  ∀ l, l ∈ knowledge ai →
       Sentence.holds (Minesweeper.mines b) (deref (heap ai) l)
       ∧ 0 ≤ Sentence.count (deref (heap ai) l)
           ≤ Z.of_nat (size (Sentence.cells (deref (heap ai) l))).
Proof.
  intros Hcs ai l _. subst ai.
  destruct (run_sound b cs _ Hcs (init_sound b)) as (_ & _ & _ & _ & Hh).
  pose proof (deref_holds b _ l Hh) as Hl. split; [done|].
  unfold Sentence.holds in Hl. rewrite <- Hl. split; [lia|].
  apply Nat2Z.inj_le, subseteq_size, intersection_subseteq_l.
Qed.

Lemma truthful_play_keeps_sentences_true_example :
  let ai := (run game_b (init 3 3)).1 in
  truthful board_b game_b = true
  ∧ ∀ l, l ∈ knowledge ai →
         Sentence.holds (Minesweeper.mines board_b) (deref (heap ai) l)
         ∧ 0 ≤ Sentence.count (deref (heap ai) l)
             ≤ Z.of_nat (size (Sentence.cells (deref (heap ai) l))).
Proof.
  cbv zeta.
  assert (truthful board_b game_b = true) as H by (vm_compute; reflexivity).
  split; [exact H|]. exact (truthful_play_keeps_sentences_true board_b game_b H).
Defined.

(** Without truthful clues a count can leave that range: a clue of 0 for a
    cell whose only neighbour is a known mine gives the sentence with no
    cell and count -1. *)
Lemma untruthful_count_goes_negative :
  let ai := (run [AddKnowledge (0, 0) 1; AddKnowledge (0, 2) 0] (init 1 3)).1 in
  (run [AddKnowledge (0, 0) 1; AddKnowledge (0, 2) 0] (init 1 3)).2 = Returned
  ∧ 1%nat ∈ knowledge ai
  ∧ deref (heap ai) 1 = Sentence.Make ∅ (-1).
Proof. cbv zeta. split_and!; by_evaluation. Qed.

End correctness.

(** * What a call of [add_knowledge] changes *)

Section effects.

Import MinesweeperAI.

Implicit Types (ai : t) (c cell : Cell) (l : loc) (h : store) (ko km : list loc) (v : vars).

Lemma same_frame_trans ai1 ai2 ai3 :
  same_frame ai1 ai2 → same_frame ai2 ai3 → same_frame ai1 ai3.
Proof. intros (?&?&?) (?&?&?). unfold same_frame. split_and!; congruence. Qed.

Lemma set_fold_same_frame (f : Cell → t → t) (X : gset Cell) ai :
  (∀ c a, same_frame a (f c a)) → same_frame ai (set_fold f ai X).
Proof.
  intros Hf. apply (set_fold_ind_L (λ r _, same_frame ai r)); [done|].
  intros c Y r _ Hr. eapply same_frame_trans; [exact Hr|apply Hf].
Qed.

Lemma mark_all_same_frame S M ai : same_frame ai (mark_all S M ai).
Proof.
  unfold mark_all. eapply same_frame_trans; apply set_fold_same_frame; by intros.
Qed.

Lemma round_same_frame ai v : same_frame ai (round ai v).1.
Proof.
  unfold round, resolution, derivation.
  set (resolved := resolve _ _).
  pose proof (mark_all_same_frame resolved.1.1 resolved.1.2 ai) as H.
  destruct (remove_each _ _ _); simpl; [|done].
  destruct (remove_each _ _ _); [|done].
  by destruct (list_eq _ _ _).
Qed.

Lemma loop_same_frame fuel ai v r : loop fuel ai v = Some r → same_frame ai r.1.
Proof.
  revert ai v. induction fuel as [|fuel IH]; intros ai v; simpl; [done|].
  pose proof (round_same_frame ai v) as H.
  destruct (round ai v) as [ai' [e|km|km]]; simpl in H.
  - by intros [= <-].
  - by intros [= <-].
  - intros Hr. eapply same_frame_trans; [exact H|]. by eapply IH.
Qed.

(** The result of a call is that of its loop. *)
Lemma add_knowledge_is_loop cell (count : Z) ai :
  loop 2 (record_move cell count ai)
       (Vars (knowledge (record_move cell count ai))
             (knowledge (record_move cell count ai)) false)
  = Some (add_knowledge cell count ai).
Proof.
  unfold add_knowledge, add_knowledge_within, closure.
  by destruct (loop_two_rounds 0 (record_move cell count ai)
                 (knowledge (record_move cell count ai))
                 (knowledge (record_move cell count ai))) as [_ [r ->]].
Qed.

(** However it ends, [add_knowledge] leaves its cell in [moves_made] and in
    [safes], adds nothing else to [moves_made], and keeps the dimensions. *)
Theorem add_knowledge_records_the_move cell (count : Z) ai :
  let ai' := (add_knowledge cell count ai).1 in
  moves_made ai' = {[cell]} ∪ moves_made ai
  ∧ cell ∈ safes ai'
  ∧ height ai' = height ai ∧ width ai' = width ai.
Proof.
  cbv zeta.
  pose proof (add_knowledge_is_loop cell count ai) as Hres.
  destruct (loop_same_frame _ _ _ _ Hres) as (Hh & Hw & Hm).
  pose proof (loop_grows _ _ _ _ Hres) as (_ & Hs & _).
  split_and!; [by rewrite Hm|apply Hs; simpl|by rewrite Hh|by rewrite Hw].
  apply elem_of_union_l. by apply elem_of_singleton.
Qed.

Lemma run_moves_safe cs ai :
  moves_made ai ⊆ safes ai → moves_made (run cs ai).1 ⊆ safes (run cs ai).1.
Proof.
  revert ai. induction cs as [|c cs IH]; intros ai Hai; simpl; [done|].
  assert (moves_made (do_call c ai).1 ⊆ safes (do_call c ai).1) as H.
  { destruct c as [cell count| |]; simpl; [|done..].
    pose proof (add_knowledge_is_loop cell count ai) as Hres.
    destruct (loop_same_frame _ _ _ _ Hres) as (_ & _ & Hm).
    pose proof (loop_grows _ _ _ _ Hres) as (_ & Hs & _).
    rewrite Hm. etrans; [|exact Hs]. simpl. by apply union_mono_l. }
  destruct (do_call c ai) as [ai' [|e]]; simpl in *; [|done].
  by apply IH.
Qed.

(** Every cell that was played is recorded as safe, whatever the clues. *)
Theorem played_cells_are_recorded_safe cs (rows columns : Z) :
  moves_made (run cs (init rows columns)).1 ⊆ safes (run cs (init rows columns)).1.
Proof. by apply run_moves_safe. Qed.

(** ** Direct resolution *)

Lemma resolve_one_grows h (acc : gset Cell * gset Cell * list loc) l :
  acc.1.1 ⊆ (resolve_one h acc l).1.1 ∧ acc.1.2 ⊆ (resolve_one h acc l).1.2.
Proof.
  unfold resolve_one. repeat destruct (bool_decide _); simpl;
    split; try done; apply union_subseteq_r.
Qed.

Lemma resolve_foldl_grows h ko (acc : gset Cell * gset Cell * list loc) :
  acc.1.1 ⊆ (foldl (resolve_one h) acc ko).1.1
  ∧ acc.1.2 ⊆ (foldl (resolve_one h) acc ko).1.2.
Proof.
  revert acc. induction ko as [|l ko IH]; intros acc; simpl; [done|].
  destruct (resolve_one_grows h acc l), (IH (resolve_one h acc l)).
  split; by etrans.
Qed.

(** What the loop of lines 254-274 collects. *)
Lemma resolve_collects h ko l :
  l ∈ ko →
  (Sentence.count (deref h l) = 0 → Sentence.cells (deref h l) ⊆ (resolve h ko).1.1)
  ∧ (Sentence.count (deref h l) ≠ 0 →
     Sentence.count (deref h l) = Z.of_nat (size (Sentence.cells (deref h l))) →
     Sentence.cells (deref h l) ⊆ (resolve h ko).1.2).
Proof.
  unfold resolve. generalize ((∅, ∅, []) : gset Cell * gset Cell * list loc).
  induction ko as [|x ko IH]; intros acc Hl; [by apply elem_of_nil in Hl|].
  apply elem_of_cons in Hl as [<-|Hl]; [|by apply IH]. simpl.
  destruct (resolve_foldl_grows h ko (resolve_one h acc l)) as [HS HM].
  unfold resolve_one in HS, HM. unfold resolve_one at 2 4.
  destruct (bool_decide_reflect (Sentence.count (deref h l) = 0)) as [H0|H0];
    simpl in *.
  { split; [|done]. intros _. etrans; [|exact HS]. apply union_subseteq_l. }
  destruct (bool_decide_reflect
              (Sentence.count (deref h l)
               = Z.of_nat (size (Sentence.cells (deref h l))))) as [Hn|Hn]; simpl in *.
  { split; [done|]. intros _ _. etrans; [|exact HM]. apply union_subseteq_l. }
  split; done.
Qed.

Lemma set_fold_mark_safe_marks (S : gset Cell) ai : S ⊆ safes (set_fold mark_safe ai S).
Proof.
  apply (set_fold_ind_L (λ r X, X ⊆ safes r)); [apply empty_subseteq|].
  intros c X r _ IH. simpl. by apply union_mono_l.
Qed.

Lemma set_fold_mark_mine_marks (M : gset Cell) ai : M ⊆ mines (set_fold mark_mine ai M).
Proof.
  apply (set_fold_ind_L (λ r X, X ⊆ mines r)); [apply empty_subseteq|].
  intros c X r _ IH. simpl. by apply union_mono_l.
Qed.

Lemma mark_all_marks S M ai :
  S ⊆ safes (mark_all S M ai) ∧ M ⊆ mines (mark_all S M ai).
Proof.
  unfold mark_all. split; [|apply set_fold_mark_mine_marks].
  etrans; [apply (set_fold_mark_safe_marks S ai)|].
  apply (set_fold_grows mark_mine M). apply mark_mine_grows.
Qed.

Lemma round_marks ai v :
  (resolve (heap ai) (knowledge_original v)).1.1 ⊆ safes (round ai v).1
  ∧ (resolve (heap ai) (knowledge_original v)).1.2 ⊆ mines (round ai v).1.
Proof.
  unfold round, resolution, derivation.
  set (resolved := resolve _ _).
  pose proof (mark_all_marks resolved.1.1 resolved.1.2 ai) as H.
  destruct (remove_each _ _ _); simpl; [|done].
  destruct (remove_each _ _ _); [|done].
  by destruct (list_eq _ _ _).
Qed.

Lemma loop_after_first_round fuel ai v r :
  loop (S fuel) ai v = Some r → grows (round ai v).1 r.1.
Proof.
  simpl. destruct (round ai v) as [ai' [e|km|km]]; simpl.
  - by intros [= <-].
  - by intros [= <-].
  - apply loop_grows.
Qed.

(** The all-safe and all-mines rules: when a call of [add_knowledge] enters
    its loop with a sentence of count 0 in the knowledge base, every cell
    of the sentence is in [safes] when the call ends, and with a sentence
    whose count is not 0 and is the number of its cells, every cell of the
    sentence is in [mines], also when the call ends in an exception. *)
Theorem resolved_cells_are_marked cell (count : Z) ai l :
  let before := record_move cell count ai in
  let after := (add_knowledge cell count ai).1 in
  l ∈ knowledge before →
  (Sentence.count (deref (heap before) l) = 0 →
   Sentence.cells (deref (heap before) l) ⊆ safes after)
  ∧ (Sentence.count (deref (heap before) l) ≠ 0 →
     Sentence.count (deref (heap before) l)
     = Z.of_nat (size (Sentence.cells (deref (heap before) l))) →
     Sentence.cells (deref (heap before) l) ⊆ mines after).
Proof.
  intros before after Hl.
  pose proof (add_knowledge_is_loop cell count ai) as Hres. fold before after in Hres.
  apply loop_after_first_round in Hres as (Hgm & Hgs & _).
  destruct (resolve_collects (heap before) (knowledge before) l Hl) as [Hsafe Hmine].
  destruct (round_marks before (Vars (knowledge before) (knowledge before) false))
    as [HS HM]. simpl in HS, HM.
  split.
  - intros H0. etrans; [by apply Hsafe|]. by etrans.
  - intros H0 Hn. etrans; [by apply Hmine|]. by etrans.
Qed.

Lemma resolved_cells_are_marked_example :
  let before := record_move (0, 1) 0 (init 1 3) in
  let after := (add_knowledge (0, 1) 0 (init 1 3)).1 in
  0%nat ∈ knowledge before
  ∧ Sentence.count (deref (heap before) 0) = 0
  ∧ Sentence.cells (deref (heap before) 0) ⊆ safes after.
Proof.
  cbv zeta.
  assert (0%nat ∈ knowledge (record_move (0, 1) 0 (init 1 3))) as H
      by (apply (bool_decide_unpack _); vm_compute; exact I).
  assert (Sentence.count (deref (heap (record_move (0, 1) 0 (init 1 3))) 0) = 0) as H0
      by (vm_compute; reflexivity).
  split; [exact H|]. split; [exact H0|].
  exact (proj1 (resolved_cells_are_marked (0, 1) 0 (init 1 3) 0%nat H) H0).
Defined.

End effects.

(** * Sentences only shrink *)

Section shrinking.

Import MinesweeperAI.

Implicit Types (ai : t) (c cell : Cell) (l : loc) (h : store) (ko km k : list loc)
  (v : vars) (s : Sentence.t) (f : Sentence.t → Sentence.t).

(** After [mark_mine] or [mark_safe] no sentence of the knowledge base holds
    the cell. *)
Theorem marked_cell_leaves_the_knowledge cell ai l :
  l ∈ knowledge ai →
  (cell ∉ Sentence.cells (deref (heap (mark_mine cell ai)) l))
  ∧ (cell ∉ Sentence.cells (deref (heap (mark_safe cell ai)) l)).
Proof.
  intros Hl. simpl.
  rewrite !deref_update_all by (intros s; apply mark_mine_twice || apply mark_safe_twice).
  split.
  - destruct (decide _) as [|Hout]; [apply mark_mine_removes|].
    unfold deref. rewrite list_lookup_total_alt, lookup_ge_None_2; [done|].
    destruct (decide (l < length (heap ai))%nat); [|lia]. destruct Hout. done.
  - destruct (decide _) as [|Hout]; [apply mark_safe_removes|].
    unfold deref. rewrite list_lookup_total_alt, lookup_ge_None_2; [done|].
    destruct (decide (l < length (heap ai))%nat); [|lia]. destruct Hout. done.
Qed.

Lemma marked_cell_leaves_the_knowledge_example :
  0%nat ∈ knowledge Games.opening_d
  ∧ ((0, 0) ∉ Sentence.cells (deref (heap (mark_mine (0, 0) Games.opening_d)) 0))
  ∧ ((0, 0) ∉ Sentence.cells (deref (heap (mark_safe (0, 0) Games.opening_d)) 0)).
Proof.
  assert (0%nat ∈ knowledge Games.opening_d) as H
      by (apply (bool_decide_unpack _); vm_compute; exact I).
  split; [exact H|]. exact (marked_cell_leaves_the_knowledge (0, 0) _ 0%nat H).
Defined.

#[local] Instance reduced_preorder : PreOrder Sentence.reduced.
Proof.
  split.
  - intros s. unfold Sentence.reduced. split_and!; [done|lia|lia].
  - intros s1 s2 s3 (Hc1 & Hn1 & Hd1) (Hc2 & Hn2 & Hd2). unfold Sentence.reduced.
    split_and!; [by etrans|lia|].
    assert (Sentence.cells s1 ∖ Sentence.cells s3
            = (Sentence.cells s1 ∖ Sentence.cells s2)
              ∪ (Sentence.cells s2 ∖ Sentence.cells s3)) as ->.
    { apply set_eq. intros x. rewrite elem_of_union, !elem_of_difference.
      specialize (Hc1 x). specialize (Hc2 x).
      destruct (decide (x ∈ Sentence.cells s2)); tauto. }
    rewrite (size_union (Sentence.cells s1 ∖ Sentence.cells s2)
                        (Sentence.cells s2 ∖ Sentence.cells s3)); [lia|].
    intros x. rewrite !elem_of_difference. tauto.
Qed.

Lemma mark_safe_reduced c s : Sentence.reduced s (Sentence.mark_safe c s).
Proof.
  unfold Sentence.mark_safe.
  destruct (bool_decide_reflect (c ∈ Sentence.cells s)); [|done].
  unfold Sentence.reduced. simpl. split_and!; [apply subseteq_difference_l; done|lia|lia].
Qed.

Lemma mark_mine_reduced c s : Sentence.reduced s (Sentence.mark_mine c s).
Proof.
  unfold Sentence.mark_mine.
  destruct (bool_decide_reflect (c ∈ Sentence.cells s)) as [Hc|]; [|done].
  unfold Sentence.reduced. simpl. split_and!; [apply subseteq_difference_l; done|lia|].
  assert (Sentence.cells s ∖ (Sentence.cells s ∖ {[c]}) = {[c]}) as ->.
  { apply set_eq. intros x. rewrite !elem_of_difference, elem_of_singleton.
    split; [|by intros ->; tauto].
    intros [? Hx]. destruct (decide (x = c)); [done|]. destruct Hx. done. }
  rewrite size_singleton. lia.
Qed.

Lemma update_all_reduced f k h l :
  (∀ s, Sentence.reduced s (f s)) → Sentence.reduced (deref h l) (deref (update_all f k h) l).
Proof.
  intros Hf. unfold update_all. revert h.
  induction k as [|x k IH]; intros h; simpl; [done|].
  etrans; [|apply IH]. rewrite deref_alter. by destruct (decide _).
Qed.

Lemma set_fold_reduced (g : Cell → t → t) (X : gset Cell) ai l :
  (∀ c a, Sentence.reduced (deref (heap a) l) (deref (heap (g c a)) l)) →
  Sentence.reduced (deref (heap ai) l) (deref (heap (set_fold g ai X)) l).
Proof.
  intros Hg.
  apply (set_fold_ind_L (λ r _, Sentence.reduced (deref (heap ai) l) (deref (heap r) l))); [done|].
  intros c Y r _ Hr. by etrans.
Qed.

Lemma mark_all_reduced S M ai l :
  Sentence.reduced (deref (heap ai) l) (deref (heap (mark_all S M ai)) l).
Proof.
  unfold mark_all. etrans; apply set_fold_reduced; intros c a; simpl;
    apply update_all_reduced; intros s;
    [apply mark_safe_reduced | apply mark_mine_reduced].
Qed.

Lemma derivation_heap ai v :
  heap (derivation ai v).1
  = heap ai ++ (derive (heap ai) (knowledge_original v) (knowledge_modified v)).*2.
Proof.
  unfold derivation. destruct (remove_each _ _ _); [|done].
  by destruct (list_eq _ _ _).
Qed.

Lemma round_reduced ai v l :
  (l < length (heap ai))%nat →
  Sentence.reduced (deref (heap ai) l) (deref (heap (round ai v).1) l)
  ∧ (length (heap ai) ≤ length (heap (round ai v).1))%nat.
Proof.
  intros Hl. unfold round, resolution.
  set (resolved := resolve _ _).
  pose proof (mark_all_reduced resolved.1.1 resolved.1.2 ai l) as H.
  pose proof (mark_all_length resolved.1.1 resolved.1.2 ai) as Hlen.
  destruct (remove_each _ _ _) as [km1|]; simpl; [|split; [done|lia]].
  rewrite derivation_heap, deref_app_old, length_app by lia.
  split; [done|lia].
Qed.

Lemma loop_reduced fuel ai v r l :
  (l < length (heap ai))%nat → loop fuel ai v = Some r →
  Sentence.reduced (deref (heap ai) l) (deref (heap r.1) l).
Proof.
  revert ai v. induction fuel as [|fuel IH]; intros ai v Hl; simpl; [done|].
  destruct (round_reduced ai v l Hl) as [H Hlen].
  destruct (round ai v) as [ai' [e|km|km]]; simpl in *.
  - by intros [= <-].
  - by intros [= <-].
  - intros Hr. etrans; [exact H|]. eapply IH; [lia|done].
Qed.

(** Sentences only shrink: across a call of [add_knowledge], however it
    ends, every sentence object that existed before the call keeps a subset
    of its cells, its count does not grow, and it falls by at most the
    number of cells the sentence lost. *)
Theorem sentences_only_shrink cell (count : Z) ai l :
  (l < length (heap ai))%nat →
  let s := deref (heap ai) l in
  let s' := deref (heap (add_knowledge cell count ai).1) l in
  Sentence.cells s' ⊆ Sentence.cells s
  ∧ Sentence.count s' ≤ Sentence.count s
  ∧ Sentence.count s - Sentence.count s'
    ≤ Z.of_nat (size (Sentence.cells s ∖ Sentence.cells s')).
Proof.
  intros Hl s s'. change (Sentence.reduced s s'). subst s s'.
  pose proof (add_knowledge_is_loop cell count ai) as Hres.
  etrans; [|eapply (loop_reduced _ _ _ _ l) ; [|exact Hres]].
  - unfold record_move, alloc. simpl. rewrite deref_app_old
      by (rewrite update_all_length; lia).
    apply update_all_reduced. intros s. apply mark_safe_reduced.
  - unfold record_move, alloc. simpl. rewrite length_app, update_all_length. lia.
Qed.

Lemma sentences_only_shrink_example :
  let s := deref (heap Games.opening_d) 0 in
  let s' := deref (heap (add_knowledge (0, 0) 0 Games.opening_d).1) 0 in
  (0 < length (heap Games.opening_d))%nat
  ∧ Sentence.cells s' ⊆ Sentence.cells s
  ∧ Sentence.count s' ≤ Sentence.count s
  ∧ Sentence.count s - Sentence.count s'
    ≤ Z.of_nat (size (Sentence.cells s ∖ Sentence.cells s')).
Proof.
  cbv zeta.
  assert (0 < length (heap Games.opening_d))%nat as H by (vm_compute; lia).
  split; [exact H|]. exact (sentences_only_shrink (0, 0) 0 _ 0%nat H).
Defined.

End shrinking.

(** * The order in which a set is visited *)

Section iteration.

Import MinesweeperAI.

Implicit Types (ai : t) (c cell : Cell) (l : loc) (h : store) (ko km k : list loc)
  (v : vars) (s : Sentence.t) (f g : Sentence.t → Sentence.t).

Lemma store_ext h1 h2 :
  length h1 = length h2 → (∀ l, deref h1 l = deref h2 l) → h1 = h2.
Proof.
  intros Hlen Hd. apply (list_eq_same_length h1 h2 (length h1)); [done..|].
  intros i x y _ Hx Hy. apply list_lookup_total_correct in Hx, Hy.
  specialize (Hd i). unfold deref in Hd. congruence.
Qed.

Lemma mark_safe_closed c s :
  Sentence.mark_safe c s = Sentence.Make (Sentence.cells s ∖ {[c]}) (Sentence.count s).
Proof.
  unfold Sentence.mark_safe.
  destruct (bool_decide_reflect (c ∈ Sentence.cells s)) as [|Hc]; [done|].
  destruct s as [X n]; simpl in *. f_equal. apply set_eq. intros x.
  rewrite elem_of_difference, elem_of_singleton. split; [|tauto].
  intros Hx. split; [done|]. by intros ->.
Qed.

Lemma mark_mine_closed c s :
  Sentence.mark_mine c s
  = Sentence.Make (Sentence.cells s ∖ {[c]})
                  (Sentence.count s - if bool_decide (c ∈ Sentence.cells s) then 1 else 0).
Proof.
  unfold Sentence.mark_mine.
  destruct (bool_decide_reflect (c ∈ Sentence.cells s)) as [|Hc]; [done|].
  destruct s as [X n]; simpl in *. f_equal; [|lia]. apply set_eq. intros x.
  rewrite elem_of_difference, elem_of_singleton. split; [|tauto].
  intros Hx. split; [done|]. by intros ->.
Qed.

Lemma difference_swap (X : gset Cell) c1 c2 : X ∖ {[c1]} ∖ {[c2]} = X ∖ {[c2]} ∖ {[c1]}.
Proof. apply set_eq. intros x. rewrite !elem_of_difference. tauto. Qed.

Lemma mark_safe_swap c1 c2 s :
  Sentence.mark_safe c1 (Sentence.mark_safe c2 s)
  = Sentence.mark_safe c2 (Sentence.mark_safe c1 s).
Proof. rewrite !mark_safe_closed. simpl. by rewrite difference_swap. Qed.

Lemma mark_mine_swap c1 c2 s :
  Sentence.mark_mine c1 (Sentence.mark_mine c2 s)
  = Sentence.mark_mine c2 (Sentence.mark_mine c1 s).
Proof.
  destruct (decide (c1 = c2)) as [->|Hne]; [done|].
  rewrite !mark_mine_closed. simpl. rewrite difference_swap. f_equal.
  rewrite (bool_decide_ext (c1 ∈ Sentence.cells s ∖ {[c2]}) (c1 ∈ Sentence.cells s)),
          (bool_decide_ext (c2 ∈ Sentence.cells s ∖ {[c1]}) (c2 ∈ Sentence.cells s)).
  - lia.
  - rewrite elem_of_difference, elem_of_singleton. split; [tauto|]. intros ?. split; [done|congruence].
  - rewrite elem_of_difference, elem_of_singleton. split; [tauto|]. intros ?. split; [done|congruence].
Qed.

Lemma update_all_swap f g k h :
  (∀ s, f (f s) = f s) → (∀ s, g (g s) = g s) → (∀ s, f (g s) = g (f s)) →
  update_all f k (update_all g k h) = update_all g k (update_all f k h).
Proof.
  intros Hf Hg Hfg. apply store_ext; [by rewrite !update_all_length|].
  intros l. rewrite !deref_update_all, !update_all_length by done.
  by destruct (decide _).
Qed.

Lemma ai_mark_safe_swap c1 c2 ai :
  mark_safe c1 (mark_safe c2 ai) = mark_safe c2 (mark_safe c1 ai).
Proof.
  unfold mark_safe. simpl. f_equal.
  - rewrite !(assoc_L (∪)). f_equal. apply (comm_L (∪)).
  - apply update_all_swap; intros s;
      [apply mark_safe_twice..|apply mark_safe_swap].
Qed.

Lemma ai_mark_mine_swap c1 c2 ai :
  mark_mine c1 (mark_mine c2 ai) = mark_mine c2 (mark_mine c1 ai).
Proof.
  unfold mark_mine. simpl. f_equal.
  - rewrite !(assoc_L (∪)). f_equal. apply (comm_L (∪)).
  - apply update_all_swap; intros s;
      [apply mark_mine_twice..|apply mark_mine_swap].
Qed.

Lemma scan_neighbor_swap ai c1 c2 (acc : gset Cell * Z) :
  scan_neighbor ai c1 (scan_neighbor ai c2 acc)
  = scan_neighbor ai c2 (scan_neighbor ai c1 acc).
Proof.
  unfold scan_neighbor.
  repeat destruct (bool_decide _); simpl; try done; f_equal; try lia;
    rewrite !(assoc_L (∪)); f_equal; apply (comm_L (∪)).
Qed.

(** A [for] loop over a Python set, as a fold over the order of the visit. *)
Lemma visit_any_order {A} (f : Cell → A → A) (a : A) (X : gset Cell) (order : list Cell) :
  (∀ c1 c2 x, f c1 (f c2 x) = f c2 (f c1 x)) →
  order ≡ₚ elements X →
  foldl (λ x c, f c x) a order = set_fold f a X.
Proof.
  intros Hswap Hperm. unfold set_fold. simpl.
  rewrite <- (foldr_permutation (=) f a (reverse order) (elements X)).
  - rewrite <- (reverse_involutive order) at 1.
    generalize (reverse order). intros k.
    induction k as [|c k IH]; [done|].
    rewrite reverse_cons, foldl_snoc. simpl. by rewrite IH.
  - intros. apply Hswap.
  - by rewrite reverse_Permutation.
Qed.

(** The results of the three loops of [add_knowledge] that visit a set
    (lines 226-231, 277-278 and 281-282) do not depend on the order in
    which Python visits the set. *)
Theorem set_iteration_order_is_irrelevant ai (count : Z) (nb S M : gset Cell)
    (order_nb order_S order_M : list Cell) :
  order_nb ≡ₚ elements nb → order_S ≡ₚ elements S → order_M ≡ₚ elements M →
  foldl (λ acc n, scan_neighbor ai n acc) (∅, count) order_nb
  = set_fold (scan_neighbor ai) (∅, count) nb
  ∧ foldl (λ a c, mark_mine c a) (foldl (λ a c, mark_safe c a) ai order_S) order_M
    = mark_all S M ai.
Proof.
  intros Hnb HS HM. split.
  - apply visit_any_order; [|done]. intros. apply scan_neighbor_swap.
  - unfold mark_all.
    rewrite (visit_any_order mark_safe ai S order_S); [|intros; apply ai_mark_safe_swap|done].
    apply visit_any_order; [|done]. intros. apply ai_mark_mine_swap.
Qed.

Lemma set_iteration_order_example :
  let nb : gset Cell := {[ (0, 0); (0, 2) ]} in
  let S : gset Cell := {[ (0, 0) ]} in
  let M : gset Cell := {[ (0, 2) ]} in
  elements nb ≡ₚ elements nb
  ∧ foldl (λ acc n, scan_neighbor Games.opening_d n acc) (∅, 1) (elements nb)
    = set_fold (scan_neighbor Games.opening_d) (∅, 1) nb
  ∧ foldl (λ a c, mark_mine c a) (foldl (λ a c, mark_safe c a) Games.opening_d (elements S))
          (elements M)
    = mark_all S M Games.opening_d.
Proof.
  cbv zeta. split; [reflexivity|].
  apply (set_iteration_order_is_irrelevant Games.opening_d 1
           {[ (0, 0); (0, 2) ]} {[ (0, 0) ]} {[ (0, 2) ]}); reflexivity.
Defined.

End iteration.

(** * A knowledge base with nothing to infer *)

Section fixed_point.

Import MinesweeperAI.

Implicit Types (ai : t) (c cell : Cell) (l : loc) (h : store) (ko km k : list loc)
  (v : vars) (s : Sentence.t).

Lemma resolve_settled h k (acc : gset Cell * gset Cell * list loc) :
  Forall (λ l, Sentence.count (deref h l) ≠ 0
               ∧ Sentence.count (deref h l)
                 ≠ Z.of_nat (size (Sentence.cells (deref h l)))) k →
  foldl (resolve_one h) acc k = acc.
Proof.
  intros Hk. revert acc. induction Hk as [|l k [H0 Hn] _ IH]; intros acc; simpl; [done|].
  rewrite <- (IH acc) at 2. f_equal. unfold resolve_one.
  by rewrite !bool_decide_false.
Qed.

Lemma derive_settled h ko km :
  Forall (λ lo, Forall (λ lm, strictly_inside (deref h lm) (deref h lo) = false) km) ko →
  derive h ko km = [].
Proof.
  unfold derive. induction 1 as [|lo ko Hlo _ IH]; [done|].
  rewrite bind_cons, IH, app_nil_r. clear IH.
  induction Hlo as [|lm km Hlm _ IH]; [done|].
  by rewrite bind_cons, IH, Hlm.
Qed.

Lemma round_settled ai k ali :
  settled (heap ai) k → round ai (Vars k k ali) = (ai, Breaks k).
Proof.
  intros [Hres Hder]. unfold round, resolution, resolve. simpl.
  rewrite (resolve_settled _ _ _ Hres). simpl.
  unfold mark_all. rewrite !set_fold_empty. simpl.
  unfold derivation, write_modified. simpl.
  replace (if ali then k else k) with k by by destruct ali.
  rewrite (derive_settled _ _ _ Hder). simpl.
  destruct ali; rewrite !app_nil_r, list_eq_refl; f_equal; by destruct ai.
Qed.

(** A knowledge base in which no sentence settles a cell and no sentence
    lies strictly inside another is a fixed point of the loop: the call of
    [add_knowledge] that meets it after appending its sentence returns in
    the first round and changes nothing more. *)
Theorem settled_knowledge_is_left_alone cell (count : Z) ai :
  let before := record_move cell count ai in
  settled (heap before) (knowledge before) →
  add_knowledge cell count ai = (before, Returned).
Proof.
  intros before Hsettled.
  pose proof (add_knowledge_is_loop cell count ai) as Hloop. fold before in Hloop.
  cbn [loop] in Hloop. rewrite (round_settled _ _ _ Hsettled) in Hloop.
  by injection Hloop as <-.
Qed.

Lemma settled_knowledge_example :
  let before := record_move (0, 0) 1 (init 2 3) in
  settled (heap before) (knowledge before)
  ∧ add_knowledge (0, 0) 1 (init 2 3) = (before, Returned).
Proof.
  cbv zeta.
  assert (settled (heap (record_move (0, 0) 1 (init 2 3)))
                  (knowledge (record_move (0, 0) 1 (init 2 3)))) as H
      by (unfold settled; apply (bool_decide_unpack _); vm_compute; exact I).
  split; [exact H|]. exact (settled_knowledge_is_left_alone (0, 0) 1 (init 2 3) H).
Defined.

End fixed_point.

(** * When a removal raises *)

Section removals.

Import MinesweeperAI.

Implicit Types (h : store) (l x : loc) (s : Sentence.t) (xs lst k ko km : list loc)
  (ai : t) (v : vars).

Lemma list_remove_is_Some h x lst :
  is_Some (list_remove h x lst) ↔ (0 < occurrences h (deref h x) lst)%nat.
Proof.
  induction lst as [|y lst IH]; simpl.
  - unfold occurrences. simpl. split; [by intros [? ?]|lia].
  - rewrite occurrences_cons. destruct (same_or_eq h y x) eqn:Heq.
    + apply same_or_eq_true in Heq. rewrite decide_True by done. split; [lia|eauto].
    + assert (deref h y ≠ deref h x) as Hne.
      { intros H. apply same_or_eq_true in H. congruence. }
      rewrite decide_False by done. by rewrite fmap_is_Some, IH.
Qed.

Lemma list_remove_length h x lst lst' :
  list_remove h x lst = Some lst' → length lst = S (length lst').
Proof.
  revert lst'. induction lst as [|y lst IH]; intros lst'; simpl; [done|].
  destruct (same_or_eq h y x); [by intros [= ->]|].
  destruct (list_remove h x lst) as [r|]; simpl; [|done].
  intros [= <-]. simpl. by rewrite (IH r).
Qed.

Lemma remove_each_length h xs lst lst' :
  remove_each h xs lst = Some lst' → length lst = (length xs + length lst')%nat.
Proof.
  revert lst. induction xs as [|x xs IH]; intros lst; simpl; [by intros [= ->]|].
  destruct (list_remove h x lst) as [r|] eqn:Hrem; [|done].
  intros Hxs. apply IH in Hxs. apply list_remove_length in Hrem. lia.
Qed.

(** [for x in xs: lst.remove(x)] raises exactly when [xs] holds more
    sentences in some state than [lst] does. *)
Lemma remove_each_None h xs lst :
  remove_each h xs lst = None
  ↔ ∃ s, (occurrences h s lst < occurrences h s xs)%nat.
Proof.
  revert lst. induction xs as [|x xs IH]; intros lst; simpl.
  - split; [done|]. intros [s Hs]. unfold occurrences in Hs. simpl in Hs. lia.
  - destruct (list_remove h x lst) as [lst'|] eqn:Hrem.
    + rewrite IH. split; intros [s Hs]; exists s;
        rewrite occurrences_cons, (list_remove_occurrences _ _ _ _ s Hrem) in *; lia.
    + split; [intros _|done]. exists (deref h x).
      rewrite occurrences_cons, decide_True by done.
      assert (¬ is_Some (list_remove h x lst)) as Hnone by (rewrite Hrem; by intros [? ?]).
      rewrite list_remove_is_Some in Hnone. lia.
Qed.

Lemma resolve_foldl_removes h ko (acc : gset Cell * gset Cell * list loc) :
  ∃ r, (foldl (resolve_one h) acc ko).2 = acc.2 ++ r ∧ sublist r ko.
Proof.
  revert acc. induction ko as [|l ko IH]; intros acc; simpl.
  - exists []. by rewrite app_nil_r.
  - destruct (IH (resolve_one h acc l)) as (r & -> & Hr).
    unfold resolve_one. repeat destruct (bool_decide _); simpl.
    + exists (l :: r). rewrite <- app_assoc. split; [done|]. by apply sublist_skip.
    + exists (l :: r). rewrite <- app_assoc. split; [done|]. by apply sublist_skip.
    + exists r. split; [done|]. by apply sublist_cons.
Qed.

Lemma resolve_removes_sublist h ko : sublist (resolve h ko).2 ko.
Proof.
  unfold resolve. by destruct (resolve_foldl_removes h ko (∅, ∅, [])) as (r & -> & Hr).
Qed.

(** The removals of line 286 never raise.  A round starts with
    [knowledge_original] and [knowledge_modified] listing the same
    sentences, and every sentence that the loop of lines 254-274 found
    settled is then removed from [knowledge_modified], one entry each. *)
Theorem settled_sentences_are_always_removed ai k (same : bool) :
  ∃ km, (resolution ai (Vars k k same)).2 = Some (write_modified km (Vars k k same))
        ∧ sublist km k
        ∧ length k = (length (resolve (heap ai) k).2 + length km)%nat.
Proof.
  unfold resolution. simpl.
  set (resolved := resolve (heap ai) k).
  set (ai1 := mark_all resolved.1.1 resolved.1.2 ai).
  destruct (remove_each (heap ai1) resolved.2 k) as [km|] eqn:Hrem.
  - exists km. split; [done|]. split.
    + by eapply remove_each_sublist.
    + by eapply remove_each_length.
  - exfalso. apply remove_each_None in Hrem as [s Hs].
    pose proof (sublist_occurrences (heap ai1) s _ _ (resolve_removes_sublist (heap ai) k)).
    fold resolved in H. lia.
Qed.

Lemma derive_fst_elem_of h ko km l : l ∈ (derive h ko km).*1 → l ∈ ko.
Proof.
  intros ([lo s] & -> & Hp)%list_elem_of_fmap. simpl. unfold derive in Hp.
  apply list_elem_of_bind in Hp as (lo' & Hp & Hlo).
  apply list_elem_of_bind in Hp as (lm & Hp & Hlm).
  destruct (strictly_inside _ _); [|by apply elem_of_nil in Hp].
  by apply list_elem_of_singleton in Hp as [= -> _].
Qed.

(** The removals of line 310 raise [ValueError] exactly when, for some
    state of a sentence, [old_sentences] holds more sentences in that state
    than [knowledge_modified] does; [old_sentences] holds a sentence of
    [knowledge_original] once for every sentence of [knowledge_modified]
    that lies strictly inside it. *)
Theorem subset_removal_raises_exactly_when ai v :
  within (heap ai) (knowledge_original v) →
  within (heap ai) (knowledge_modified v) →
  (derivation ai v).2 = Raises ValueError
  ↔ ∃ s, (occurrences (heap ai) s (knowledge_modified v)
          < occurrences (heap ai) s
              (derive (heap ai) (knowledge_original v) (knowledge_modified v)).*1)%nat.
Proof.
  intros Hko Hkm. unfold derivation. simpl.
  set (pairs := derive (heap ai) (knowledge_original v) (knowledge_modified v)).
  assert (Forall (λ l, (l < length (heap ai))%nat) pairs.*1) as Hold.
  { apply Forall_forall. intros l Hl%derive_fst_elem_of.
    by apply (proj1 (Forall_forall _ _) Hko). }
  assert (∀ s, occurrences (heap ai ++ pairs.*2) s pairs.*1
               = occurrences (heap ai) s pairs.*1) as Hocc1
      by (intros s; by apply occurrences_app_old).
  assert (∀ s, occurrences (heap ai ++ pairs.*2) s (knowledge_modified v)
               = occurrences (heap ai) s (knowledge_modified v)) as Hocc2
      by (intros s; by apply occurrences_app_old).
  destruct (remove_each (heap ai ++ pairs.*2) pairs.*1 (knowledge_modified v))
    as [km|] eqn:Hrem.
  - split.
    + by destruct (list_eq _ _ _).
    + intros [s Hs]. exfalso.
      pose proof (remove_each_occurrences _ _ _ _ s Hrem) as H.
      rewrite Hocc1, Hocc2 in H. lia.
  - split; [intros _|done].
    apply remove_each_None in Hrem as [s Hs]. exists s.
    by rewrite Hocc1, Hocc2 in Hs.
Qed.

Lemma subset_removal_raises_example :
  let ai := record_move (0, 2) 1 (run Games.opening_a (init 2 3)).1 in
  let v := Vars (knowledge ai) (knowledge ai) false in
  within (heap ai) (knowledge ai)
  ∧ ((derivation ai v).2 = Raises ValueError
     ↔ ∃ s, (occurrences (heap ai) s (knowledge ai)
             < occurrences (heap ai) s (derive (heap ai) (knowledge ai) (knowledge ai)).*1)%nat).
Proof.
  cbv zeta.
  assert (within (heap (record_move (0, 2) 1 (run Games.opening_a (init 2 3)).1))
                 (knowledge (record_move (0, 2) 1 (run Games.opening_a (init 2 3)).1))) as H
      by (unfold within; apply (bool_decide_unpack _); vm_compute; exact I).
  split; [exact H|].
  exact (subset_removal_raises_exactly_when
           (record_move (0, 2) 1 (run Games.opening_a (init 2 3)).1)
           (Vars (knowledge (record_move (0, 2) 1 (run Games.opening_a (init 2 3)).1))
                 (knowledge (record_move (0, 2) 1 (run Games.opening_a (init 2 3)).1)) false)
           H H).
Defined.

End removals.

(** All the cells of a board of the given dimensions. *)
(** * The knowledge stays on the board *)

Section grid.

Import MinesweeperAI.

Implicit Types (ai : t) (c cell : Cell) (l : loc) (h : store) (ko km k : list loc)
  (v : vars) (s : Sentence.t) (rows columns : Z).

Lemma elem_of_board_cells rows columns c :
  c ∈ board_cells rows columns ↔ 0 ≤ c.1 < rows ∧ 0 ≤ c.2 < columns.
Proof.
  unfold board_cells. rewrite elem_of_list_to_set, list_elem_of_bind.
  destruct c as [x y]; simpl. split.
  - intros (i & (j & Hc & Hj%elem_of_seqZ)%list_elem_of_bind & Hi%elem_of_seqZ).
    apply list_elem_of_singleton in Hc as [= -> ->]. lia.
  - intros [Hx Hy]. exists x. split; [|apply elem_of_seqZ; lia].
    apply list_elem_of_bind. exists y. split; [|apply elem_of_seqZ; lia].
    by apply list_elem_of_singleton.
Qed.

Lemma size_board_cells rows columns :
  size (board_cells rows columns) = (Z.to_nat rows * Z.to_nat columns)%nat.
Proof.
  unfold board_cells. rewrite size_list_to_set.
  - rewrite <- (length_seqZ 0 rows). generalize (seqZ 0 rows). intros xs.
    induction xs as [|i xs IH]; [done|].
    rewrite bind_cons, length_app, IH. simpl. f_equal.
    rewrite <- (length_seqZ 0 columns). generalize (seqZ 0 columns). intros ys.
    induction ys as [|j ys IHj]; [done|]. rewrite bind_cons. simpl. by rewrite IHj.
  - apply NoDup_bind; [| |apply NoDup_seqZ].
    + intros i1 i2 [x y] _ _ (j1 & Hc1 & _)%list_elem_of_bind
        (j2 & Hc2 & _)%list_elem_of_bind.
      apply list_elem_of_singleton in Hc1, Hc2. congruence.
    + intros i _. apply NoDup_bind; [| |apply NoDup_seqZ].
      * intros j1 j2 [x y] _ _ Hc1%list_elem_of_singleton Hc2%list_elem_of_singleton.
        congruence.
      * intros j _. apply NoDup_singleton.
Qed.

Lemma neighbors_on_board ai cell :
  neighbors ai cell ⊆ board_cells (height ai) (width ai).
Proof. intros c [Hc _]%elem_of_neighbors. by apply elem_of_board_cells. Qed.

Lemma in_board_mark_safe rows columns c ai :
  c ∈ board_cells rows columns → in_board rows columns ai →
  in_board rows columns (mark_safe c ai).
Proof.
  intros Hc (Hh & Hw & Hm & Hs & Hk). unfold in_board. simpl. split_and!; try done.
  - apply union_subseteq. split; [by apply singleton_subseteq_l|done].
  - apply update_all_Forall; [|done]. intros s Hsub. etrans; [|exact Hsub].
    by destruct (mark_safe_reduced c s).
Qed.

Lemma in_board_mark_mine rows columns c ai :
  c ∈ board_cells rows columns → in_board rows columns ai →
  in_board rows columns (mark_mine c ai).
Proof.
  intros Hc (Hh & Hw & Hm & Hs & Hk). unfold in_board. simpl. split_and!; try done.
  - apply union_subseteq. split; [by apply singleton_subseteq_l|done].
  - apply update_all_Forall; [|done]. intros s Hsub. etrans; [|exact Hsub].
    by destruct (mark_mine_reduced c s).
Qed.

Lemma in_board_mark_all rows columns (S M : gset Cell) ai :
  S ⊆ board_cells rows columns → M ⊆ board_cells rows columns →
  in_board rows columns ai → in_board rows columns (mark_all S M ai).
Proof.
  intros HS HM Hai. unfold mark_all.
  assert (in_board rows columns (set_fold mark_safe ai S)) as Hsafe.
  { revert HS. apply (set_fold_ind_L (λ r X, X ⊆ _ → in_board rows columns r)); [done|].
    intros c X r _ IH HX. apply in_board_mark_safe.
    - apply HX, elem_of_union_l. by apply elem_of_singleton.
    - apply IH. etrans; [apply union_subseteq_r|exact HX]. }
  revert HM. apply (set_fold_ind_L (λ r X, X ⊆ _ → in_board rows columns r)); [done|].
  intros c X r _ IH HX. apply in_board_mark_mine.
  - apply HX, elem_of_union_l. by apply elem_of_singleton.
  - apply IH. etrans; [apply union_subseteq_r|exact HX].
Qed.

Lemma deref_on_board rows columns h l :
  Forall (λ s, Sentence.cells s ⊆ board_cells rows columns) h →
  Sentence.cells (deref h l) ⊆ board_cells rows columns.
Proof.
  intros Hh. unfold deref. rewrite list_lookup_total_alt.
  destruct (h !! l) as [s|] eqn:Hl; simpl; [|apply empty_subseteq].
  by apply (Forall_lookup_1 _ _ _ _ Hh Hl).
Qed.

Lemma resolve_on_board rows columns h ko :
  Forall (λ s, Sentence.cells s ⊆ board_cells rows columns) h →
  (resolve h ko).1.1 ⊆ board_cells rows columns
  ∧ (resolve h ko).1.2 ⊆ board_cells rows columns.
Proof.
  intros Hh. unfold resolve.
  assert (∀ acc : gset Cell * gset Cell * list loc,
            acc.1.1 ⊆ board_cells rows columns ∧ acc.1.2 ⊆ board_cells rows columns →
            (foldl (resolve_one h) acc ko).1.1 ⊆ board_cells rows columns
            ∧ (foldl (resolve_one h) acc ko).1.2 ⊆ board_cells rows columns) as Hgen.
  { induction ko as [|l ko IH]; intros acc [HS HM]; simpl; [done|].
    apply IH. pose proof (deref_on_board rows columns h l Hh) as Hl.
    unfold resolve_one. repeat destruct (bool_decide _); simpl;
      split; try done; by apply union_subseteq. }
  apply Hgen. simpl. split; apply empty_subseteq.
Qed.

Lemma derive_on_board rows columns h ko km :
  Forall (λ s, Sentence.cells s ⊆ board_cells rows columns) h →
  Forall (λ s, Sentence.cells s ⊆ board_cells rows columns) (derive h ko km).*2.
Proof.
  intros Hh. apply Forall_forall. intros s Hs.
  apply list_elem_of_fmap in Hs as ([lo s'] & -> & Hs). simpl.
  unfold derive in Hs.
  apply list_elem_of_bind in Hs as (lo' & Hs & _).
  apply list_elem_of_bind in Hs as (lm & Hs & _).
  destruct (strictly_inside (deref h lm) (deref h lo')); [|by apply elem_of_nil in Hs].
  apply list_elem_of_singleton in Hs as [= -> ->]. simpl.
  etrans; [apply subseteq_difference_l; reflexivity|]. by apply deref_on_board.
Qed.

Lemma round_on_board rows columns ai v :
  in_board rows columns ai → in_board rows columns (round ai v).1.
Proof.
  intros Hai. unfold round, resolution.
  set (resolved := resolve _ _).
  assert (in_board rows columns (mark_all resolved.1.1 resolved.1.2 ai)) as Hmarked.
  { destruct (resolve_on_board rows columns (heap ai) (knowledge_original v)) as [HS HM];
      [apply Hai|]. by apply in_board_mark_all. }
  destruct (remove_each _ _ _) as [km1|]; simpl; [|done].
  destruct Hmarked as (Hh & Hw & Hm & Hs & Hk).
  unfold in_board. rewrite derivation_heap.
  unfold derivation. destruct (remove_each _ _ _); [destruct (list_eq _ _ _)|]; simpl;
    (split_and!; try done; apply Forall_app; split; [done|]; by apply derive_on_board).
Qed.

Lemma loop_on_board rows columns fuel ai v r :
  loop fuel ai v = Some r → in_board rows columns ai → in_board rows columns r.1.
Proof.
  revert ai v. induction fuel as [|fuel IH]; intros ai v; simpl; [done|].
  pose proof (round_on_board rows columns ai v) as H.
  destruct (round ai v) as [ai' [e|km|km]]; simpl in H.
  - by intros [= <-].
  - intros [= <-] Hai. by apply H in Hai.
  - intros Hr Hai. eapply IH; eauto.
Qed.

Lemma record_move_on_board rows columns cell (count : Z) ai :
  cell ∈ board_cells rows columns → in_board rows columns ai →
  in_board rows columns (record_move cell count ai).
Proof.
  intros Hc Hai. unfold record_move.
  set (ai1 := Make _ _ ({[cell]} ∪ moves_made ai) _ _ _ _).
  assert (in_board rows columns (mark_safe cell ai1)) as Hmarked
      by by apply in_board_mark_safe.
  destruct Hmarked as (Hh & Hw & Hm & Hs & Hk). unfold in_board, alloc. simpl.
  split_and!; try done. apply Forall_app. split; [done|]. apply Forall_singleton.
  unfold new_sentence. simpl. etrans; [apply subseteq_difference_l; reflexivity|].
  simpl in Hh, Hw. rewrite <- Hh, <- Hw. apply (neighbors_on_board ai1).
Qed.

Lemma run_on_board rows columns cs ai :
  on_board rows columns cs = true → in_board rows columns ai →
  in_board rows columns (run cs ai).1.
Proof.
  revert ai. induction cs as [|c cs IH]; intros ai Hcs Hai; simpl; [done|].
  simpl in Hcs. apply andb_true_iff in Hcs as [Hc Hcs].
  assert (in_board rows columns (do_call c ai).1) as H.
  { destruct c as [cell count| |]; simpl; [|done..].
    pose proof (add_knowledge_is_loop cell count ai) as Hres.
    eapply loop_on_board; [exact Hres|]. apply record_move_on_board; [|done].
    apply elem_of_board_cells. by apply in_bounds_spec. }
  destruct (do_call c ai) as [ai' [|e]]; simpl in *; [|done].
  by apply IH.
Qed.

(** When every cell handed to [add_knowledge] is a cell of the board, the
    player never knows of a cell outside the board, whatever the counts:
    the cells of [mines], of [safes] and of every sentence of the knowledge
    base are within bounds. *)
Theorem knowledge_stays_on_the_board rows columns cs :
  on_board rows columns cs = true →
  let ai := (run cs (init rows columns)).1 in
  ∀ c, (c ∈ mines ai ∨ c ∈ safes ai
        ∨ ∃ l, l ∈ knowledge ai ∧ c ∈ Sentence.cells (deref (heap ai) l)) →
       0 ≤ c.1 < rows ∧ 0 ≤ c.2 < columns.
Proof.
  intros Hcs ai c Hc. apply elem_of_board_cells.
  assert (in_board rows columns (init rows columns)) as Hinit.
  { unfold in_board, init. simpl. by split_and!. }
  destruct (run_on_board rows columns cs _ Hcs Hinit) as (_ & _ & Hm & Hs & Hk).
  destruct Hc as [Hc|[Hc|(l & _ & Hc)]]; [by apply Hm|by apply Hs|].
  by apply (deref_on_board rows columns _ l Hk).
Qed.

Lemma knowledge_stays_on_the_board_example :
  let ai := (run Games.game_b (init 3 3)).1 in
  on_board 3 3 Games.game_b = true
  ∧ ∀ c, (c ∈ mines ai ∨ c ∈ safes ai
          ∨ ∃ l, l ∈ knowledge ai ∧ c ∈ Sentence.cells (deref (heap ai) l)) →
         0 ≤ c.1 < 3 ∧ 0 ≤ c.2 < 3.
Proof.
  cbv zeta.
  assert (on_board 3 3 Games.game_b = true) as H by (vm_compute; reflexivity).
  split; [exact H|]. exact (knowledge_stays_on_the_board 3 3 Games.game_b H).
Defined.

End grid.

(** * The end of the game *)

Section endgame.

Import MinesweeperAI.

Implicit Types (ai : t) (c cell : Cell).

(** With truthful clues for cells of the board, the test that ends
    [make_random_move] is exact: it returns [None] exactly when every cell
    of the board is in [mines] or in [safes], and otherwise some cell of
    the board is returned as soon as it is drawn. *)
Theorem end_of_game_test_is_exact b cs :
  0 ≤ Minesweeper.height b → 0 ≤ Minesweeper.width b →
  truthful b cs = true →
  on_board (Minesweeper.height b) (Minesweeper.width b) cs = true →
  let ai := (run cs (init (Minesweeper.height b) (Minesweeper.width b))).1 in
  let known :=
    ∀ c, 0 ≤ c.1 < Minesweeper.height b ∧ 0 ≤ c.2 < Minesweeper.width b →
         c ∈ mines ai ∨ c ∈ safes ai in
  (∀ draws, make_random_move draws ai = Some None ↔ known)
  ∧ (¬ known →
     ∃ c, (0 ≤ c.1 < Minesweeper.height b ∧ 0 ≤ c.2 < Minesweeper.width b)
          ∧ ∀ draws, make_random_move (c :: draws) ai = Some (Some c)).
Proof.
  intros Hrows Hcolumns Htrue Hboard ai known.
  set (rows := Minesweeper.height b) in *. set (columns := Minesweeper.width b) in *.
  assert (in_board rows columns (init rows columns)) as Hinit.
  { unfold in_board, init. simpl. by split_and!. }
  destruct (run_on_board rows columns cs _ Hboard Hinit) as (Hh & Hw & Hm & Hs & _).
  destruct (run_sound b cs _ Htrue (init_sound b)) as (_ & _ & Hmb & Hsb & _).
  fold rows columns ai in Hh, Hw, Hm, Hs, Hmb, Hsb.
  assert (moves_made ai ⊆ safes ai) as Hmoves by by apply run_moves_safe.
  assert (mines ai ## safes ai) as Hdisj.
  { intros c Hc1 Hc2. by apply (Hsb c Hc2), Hmb. }
  assert (Z.of_nat (size (mines ai)) + Z.of_nat (size (safes ai)) = height ai * width ai
          ↔ known) as Hknown.
  { rewrite Hh, Hw, <- Nat2Z.inj_add, <- (size_union (mines ai) (safes ai)) by done.
    replace (rows * columns) with (Z.of_nat (size (board_cells rows columns)))
      by (rewrite size_board_cells; lia).
    split.
    - intros Hsize c Hc%elem_of_board_cells.
      assert (mines ai ∪ safes ai = board_cells rows columns) as Heq.
      { apply set_subseteq_size_eq; [by apply union_subseteq|lia]. }
      rewrite <- Heq in Hc. by apply elem_of_union in Hc.
    - intros Hall. do 2 f_equal. apply set_eq. intros c. split.
      + intros [?|?]%elem_of_union; [by apply Hm|by apply Hs].
      + intros Hc%elem_of_board_cells. apply elem_of_union. by apply Hall. }
  split.
  - intros draws. by rewrite random_move_none.
  - intros Hnot.
    destruct (set_choose_or_empty (board_cells rows columns ∖ (mines ai ∪ safes ai)))
      as [[c Hc]|Hempty].
    + apply elem_of_difference in Hc as [Hc Hnew]. exists c.
      split; [by apply elem_of_board_cells|]. intros draws.
      apply random_move_first.
      * by rewrite Hknown.
      * intros Hplayed. apply Hnew, elem_of_union_r. by apply Hmoves.
      * intros Hmine. by apply Hnew, elem_of_union_l.
    + destruct Hnot. intros c Hc%elem_of_board_cells.
      destruct (decide (c ∈ mines ai ∪ safes ai)) as [Hin|Hout];
        [by apply elem_of_union in Hin|].
      exfalso. apply (not_elem_of_empty (C:=gset Cell) c). rewrite <- Hempty.
      by apply elem_of_difference.
Qed.

Lemma end_of_game_test_example :
  let ai := (run Games.game_d (init 1 3)).1 in
  truthful Games.board_d Games.game_d = true
  ∧ on_board 1 3 Games.game_d = true
  ∧ ∀ draws, make_random_move draws ai = Some None
             ↔ ∀ c, 0 ≤ c.1 < 1 ∧ 0 ≤ c.2 < 3 → c ∈ mines ai ∨ c ∈ safes ai.
Proof.
  cbv zeta.
  assert (truthful Games.board_d Games.game_d = true) as H1 by (vm_compute; reflexivity).
  assert (on_board 1 3 Games.game_d = true) as H2 by (vm_compute; reflexivity).
  split; [exact H1|]. split; [exact H2|].
  exact (proj1 (end_of_game_test_is_exact Games.board_d Games.game_d
                  ltac:(simpl; lia) ltac:(simpl; lia) H1 H2)).
Defined.

End endgame.

(** * The board *)

Section board.

Import Board.

Implicit Types (b : t) (c cell : Cell) (i j : nat) (draws : list (nat * nat))
  (rows columns target : Z).

Lemma entry_lookup b i j : entry b (Z.of_nat i, Z.of_nat j) = board b !! i ≫= (.!! j).
Proof.
  unfold entry, item. cbn [fst snd].
  rewrite !Nat2Z.id.
  destruct (bool_decide_reflect (0 ≤ Z.of_nat i)); [|lia].
  destruct (board b !! i) as [row|]; [|done]. simpl.
  by destruct (bool_decide_reflect (0 ≤ Z.of_nat j)); [|lia].
Qed.

Lemma consistent_some b i j :
  consistent b → (i < Z.to_nat (height b))%nat → (j < Z.to_nat (width b))%nat →
  ∃ x, board b !! i ≫= (.!! j) = Some x.
Proof.
  intros (Hlen & Hrows & _) Hi Hj.
  destruct (lookup_lt_is_Some_2 (board b) i) as [row Hrow]; [lia|].
  rewrite Hrow. simpl.
  pose proof (Forall_lookup_1 _ _ _ _ Hrows Hrow) as Hw. simpl in Hw.
  destruct (lookup_lt_is_Some_2 row j) as [x Hx]; [lia|]. eauto.
Qed.

Lemma lookup_consistent b i j :
  consistent b → (i < Z.to_nat (height b))%nat → (j < Z.to_nat (width b))%nat →
  board b !! i ≫= (.!! j) = Some (bool_decide ((Z.of_nat i, Z.of_nat j) ∈ mines b)).
Proof.
  intros Hb Hi Hj. destruct (consistent_some b i j Hb Hi Hj) as [m Hm].
  destruct Hb as (_ & _ & Hiff & _). specialize (Hiff i j).
  rewrite Hm. f_equal. destruct m.
  - symmetry. apply bool_decide_eq_true. by apply Hiff.
  - symmetry. apply bool_decide_eq_false. intros Hin. apply Hiff in Hin. congruence.
Qed.

Lemma entry_consistent b c :
  consistent b → 0 ≤ c.1 < height b → 0 ≤ c.2 < width b →
  entry b c = Some (bool_decide (c ∈ mines b)).
Proof.
  intros Hb Hi Hj. destruct c as [x y]. cbn [fst snd] in *.
  rewrite <- (Z2Nat.id x), <- (Z2Nat.id y) by lia. rewrite entry_lookup.
  apply lookup_consistent; [done|lia..].
Qed.

Lemma blank_consistent rows columns :
  consistent (Make rows columns ∅ (blank rows columns) ∅).
Proof.
  unfold consistent, blank. simpl. split_and!.
  - apply length_replicate.
  - apply Forall_forall. intros row ->%elem_of_replicate_inv. apply length_replicate.
  - intros i j. split; [|by intros ?%not_elem_of_empty].
    destruct (replicate _ _ !! i) as [row|] eqn:Hrow; simpl; [|done].
    apply lookup_replicate in Hrow as [-> _].
    intros Hj. by apply lookup_replicate in Hj as [? _].
  - by intros c ?%not_elem_of_empty.
Qed.

Lemma lay_consistent i j b :
  consistent b → board b !! i ≫= (.!! j) = Some false → consistent (lay i j b).
Proof.
  intros (Hlen & Hrows & Hiff & Hin) Hij.
  destruct (board b !! i) as [row|] eqn:Hrow; simpl in Hij; [|done].
  pose proof (lookup_lt_Some _ _ _ Hrow) as Hi.
  pose proof (lookup_lt_Some _ _ _ Hij) as Hj.
  pose proof (Forall_lookup_1 _ _ _ _ Hrows Hrow) as Hw. simpl in Hw.
  unfold consistent, lay. simpl. split_and!.
  - by rewrite length_alter.
  - apply Forall_alter; [done|]. intros r _ Hr. by rewrite length_insert.
  - intros i' j'. rewrite elem_of_union, elem_of_singleton, <- Hiff.
    destruct (decide (i = i')) as [<-|Hne].
    + rewrite list_lookup_alter_eq, Hrow. simpl.
      destruct (decide (j = j')) as [<-|Hne'].
      * rewrite list_lookup_insert_eq by lia. split; [by left|done].
      * rewrite list_lookup_insert_ne by done.
        split; [by right|]. intros [Heq|?]; [|done]. injection Heq. lia.
    + rewrite list_lookup_alter_ne by done.
      split; [by right|]. intros [Heq|?]; [|done]. injection Heq. lia.
  - intros c [->%elem_of_singleton|Hc]%elem_of_union; [simpl; lia|by apply Hin].
Qed.

Lemma place_consistent draws target b b' :
  consistent b → place draws target b = Built b' →
  consistent b' ∧ height b' = height b ∧ width b' = width b
  ∧ Z.of_nat (size (mines b')) = target ∧ mines_found b' = ∅
  ∧ mines b ⊆ mines b'.
Proof.
  revert b. induction draws as [|[i j] draws IH]; intros b Hb; simpl.
  - destruct (bool_decide_reflect (Z.of_nat (size (mines b)) = target)) as [Hn|Hn].
    + intros [= <-]. simpl. by split_and!.
    + by destruct (_ || _).
  - destruct (bool_decide_reflect (Z.of_nat (size (mines b)) = target)) as [Hn|Hn].
    + intros [= <-]. simpl. by split_and!.
    + destruct (_ || _); [done|].
      destruct (board b !! i ≫= (.!! j)) as [[|]|] eqn:Hij; [by apply IH| |done].
      intros Hplace. apply IH in Hplace as (? & ? & ? & ? & ? & Hsub);
        [|by apply lay_consistent].
      split_and!; try done. etrans; [|exact Hsub]. simpl. apply union_subseteq_r.
Qed.

Lemma init_consistent draws rows columns target b :
  init draws rows columns target = Built b →
  consistent b ∧ height b = rows ∧ width b = columns
  ∧ Z.of_nat (size (mines b)) = target ∧ mines_found b = ∅.
Proof.
  intros H. apply place_consistent in H as (? & ? & ? & ? & ? & _); [done|].
  apply blank_consistent.
Qed.

Lemma consistent_size b :
  consistent b → (size (mines b) ≤ Z.to_nat (height b) * Z.to_nat (width b))%nat.
Proof.
  intros (_ & _ & _ & Hin). rewrite <- size_board_cells. apply subseteq_size.
  intros c Hc. apply elem_of_board_cells. by apply Hin.
Qed.

Lemma in_range_spec rows columns (d : nat * nat) :
  in_range rows columns d = true
  ↔ (d.1 < Z.to_nat rows)%nat ∧ (d.2 < Z.to_nat columns)%nat.
Proof.
  unfold in_range. rewrite andb_true_iff, !bool_decide_eq_true. lia.
Qed.

(** ** The constructor *)

(** A board that [__init__] returns has the dimensions asked for, a matrix
    of that shape that is [True] exactly at the cells of [mines], as many
    mines as asked for, all of them on the board, and no mine found; so the
    number of mines asked for lies between 0 and the number of cells, and
    the game is won from the start exactly when no mine was asked for. *)
Theorem init_lays_the_mines_asked_for draws rows columns target b :
  init draws rows columns target = Built b →
  height b = rows ∧ width b = columns
  ∧ length (board b) = Z.to_nat rows
  ∧ Forall (λ row, length row = Z.to_nat columns) (board b)
  ∧ (∀ i j, board b !! i ≫= (.!! j) = Some true ↔ (Z.of_nat i, Z.of_nat j) ∈ mines b)
  ∧ (∀ c, c ∈ mines b → 0 ≤ c.1 < rows ∧ 0 ≤ c.2 < columns)
  ∧ Z.of_nat (size (mines b)) = target
  ∧ 0 ≤ target ≤ Z.of_nat (Z.to_nat rows * Z.to_nat columns)
  ∧ mines_found b = ∅
  ∧ won b = bool_decide (target = 0).
Proof.
  intros (Hb & <- & <- & <- & Hfound)%init_consistent.
  pose proof (consistent_size b Hb) as Hsize.
  destruct Hb as (Hlen & Hrows & Hiff & Hin).
  split_and!; try done; try lia.
  unfold won. rewrite Hfound. apply bool_decide_ext.
  split; [intros <-; by rewrite size_empty|].
  intros ?. symmetry. apply leibniz_equiv, size_empty_iff. lia.
Qed.

Lemma init_lays_the_mines_example :
  init Games.draws_b 3 3 2 = Built Games.built_b
  ∧ Z.of_nat (size (mines Games.built_b)) = 2
  ∧ mines_found Games.built_b = ∅
  ∧ won Games.built_b = bool_decide (2 = 0).
Proof.
  assert (init Games.draws_b 3 3 2 = Built Games.built_b) as H by (vm_compute; reflexivity).
  split; [exact H|].
  destruct (init_lays_the_mines_asked_for Games.draws_b 3 3 2 Games.built_b H)
    as (_ & _ & _ & _ & _ & _ & Hsize & _ & Hfound & Hwon).
  exact (conj Hsize (conj Hfound Hwon)).
Defined.

Lemma place_goes_on draws target b :
  consistent b → 0 < height b → 0 < width b →
  target < 0 ∨ Z.of_nat (Z.to_nat (height b) * Z.to_nat (width b)) < target →
  forallb (in_range (height b) (width b)) draws = true →
  place draws target b = Placing.
Proof.
  intros Hb Hh Hw Htarget. revert b Hb Hh Hw Htarget.
  induction draws as [|d draws IH]; intros b Hb Hh Hw Htarget Hdraws;
    pose proof (consistent_size b Hb) as Hsize; simpl.
  - rewrite bool_decide_false by lia.
    by rewrite !(bool_decide_false (_ ≤ 0)) by lia.
  - rewrite bool_decide_false by lia.
    rewrite !(bool_decide_false (_ ≤ 0)) by lia. simpl.
    simpl in Hdraws. apply andb_true_iff in Hdraws as [Hd Hdraws].
    apply in_range_spec in Hd as [Hi Hj]. destruct d as [i j]. simpl in Hi, Hj.
    destruct (consistent_some b i j Hb Hi Hj) as [x Hx]. rewrite Hx.
    destruct x; [by apply IH|].
    apply (IH (lay i j b)); try done. by apply lay_consistent.
Qed.

(** Asked for a negative number of mines, or for more mines than the board
    has cells, [__init__] never returns a board: whatever [random.randrange]
    returns, the loop of lines 26-31 is still running after any number of
    rounds when both dimensions are positive. *)
Theorem init_never_ends_on_an_impossible_count draws rows columns target :
  target < 0 ∨ Z.of_nat (Z.to_nat rows * Z.to_nat columns) < target →
  (∀ b, init draws rows columns target ≠ Built b)
  ∧ (0 < rows → 0 < columns → forallb (in_range rows columns) draws = true →
     init draws rows columns target = Placing).
Proof.
  intros Htarget. split.
  - intros b (Hb & <- & <- & <- & _)%init_consistent.
    pose proof (consistent_size b Hb). lia.
  - intros Hrows Hcolumns Hdraws.
    by apply (place_goes_on draws target (Make rows columns ∅ (blank rows columns) ∅));
      [apply blank_consistent|..].
Qed.

Lemma init_never_ends_example :
  (4 < 0 ∨ Z.of_nat (Z.to_nat 1 * Z.to_nat 3) < 4)
  ∧ forallb (in_range 1 3) [(0, 0); (0, 1); (0, 2); (0, 1)]%nat = true
  ∧ init [(0, 0); (0, 1); (0, 2); (0, 1)]%nat 1 3 4 = Placing.
Proof.
  assert (4 < 0 ∨ Z.of_nat (Z.to_nat 1 * Z.to_nat 3) < 4) as H by (right; reflexivity).
  split; [exact H|]. split; [reflexivity|].
  apply (proj2 (init_never_ends_on_an_impossible_count
                  [(0, 0); (0, 1); (0, 2); (0, 1)]%nat 1 3 4 H)); [lia|lia|reflexivity].
Defined.

Lemma place_lays draws b :
  consistent b → forallb (in_range (height b) (width b)) draws = true →
  ∃ b', place draws (Z.of_nat (size (mines b ∪ list_to_set (cell_of <$> draws)))) b
        = Built b'
        ∧ mines b' = mines b ∪ list_to_set (cell_of <$> draws).
Proof.
  revert b. induction draws as [|[i j] draws IH]; intros b Hb Hdraws.
  - simpl. rewrite (right_id_L ∅ (∪)). rewrite bool_decide_true by done. eauto.
  - simpl in Hdraws. apply andb_true_iff in Hdraws as [Hd Hdraws].
    apply in_range_spec in Hd as [Hi Hj]. simpl in Hi, Hj.
    set (all := mines b ∪ list_to_set (cell_of <$> (i, j) :: draws)).
    simpl. fold all.
    destruct (bool_decide_reflect (Z.of_nat (size (mines b)) = Z.of_nat (size all)))
      as [Hn|Hn].
    { eexists. split; [done|]. simpl. apply set_subseteq_size_eq; [|lia].
      apply union_subseteq_l. }
    rewrite !(bool_decide_false (_ ≤ 0)) by lia. simpl.
    destruct (consistent_some b i j Hb Hi Hj) as [x Hx]. rewrite Hx.
    destruct Hb as (Hlen & Hrows & Hiff & Hin).
    destruct x.
    + assert (all = mines b ∪ list_to_set (cell_of <$> draws)) as ->.
      { unfold all. rewrite fmap_cons, list_to_set_cons.
        apply Hiff in Hx. unfold cell_of at 1. simpl.
        apply set_eq. intros c. rewrite !elem_of_union, elem_of_singleton.
        split; [intros [?|[->|?]]; auto|intros [?|?]; auto]. }
      by apply IH.
    + assert (all = mines (lay i j b) ∪ list_to_set (cell_of <$> draws)) as ->.
      { unfold all. rewrite fmap_cons, list_to_set_cons. unfold cell_of at 1. simpl.
        apply set_eq. intros c. rewrite !elem_of_union, elem_of_singleton. tauto. }
      apply IH; [|done]. by apply lay_consistent.
Qed.

(** The mines of the board are the cells that [random.randrange] drew: when
    as many mines are asked for as there are distinct pairs in the draws,
    [__init__] returns, and [mines] is the set of the pairs drawn.  A pair
    drawn again is skipped. *)
Theorem init_lays_the_cells_drawn draws rows columns :
  forallb (in_range rows columns) draws = true →
  let drawn : gset Cell := list_to_set (cell_of <$> draws) in
  ∃ b, init draws rows columns (Z.of_nat (size drawn)) = Built b ∧ mines b = drawn.
Proof.
  intros Hdraws drawn.
  destruct (place_lays draws (Make rows columns ∅ (blank rows columns) ∅))
    as (b & Hplace & Hmines); [apply blank_consistent|done|].
  simpl in Hplace, Hmines. rewrite (left_id_L ∅ (∪)) in Hplace, Hmines. eauto.
Qed.

Lemma init_lays_the_cells_drawn_example :
  forallb (in_range 3 3) Games.draws_b = true
  ∧ ∃ b, init Games.draws_b 3 3
              (Z.of_nat (size (list_to_set (C := gset Cell) (cell_of <$> Games.draws_b))))
         = Built b
         ∧ mines b = list_to_set (cell_of <$> Games.draws_b).
Proof.
  assert (forallb (in_range 3 3) Games.draws_b = true) as H by reflexivity.
  split; [exact H|]. exact (init_lays_the_cells_drawn Games.draws_b 3 3 H).
Defined.

(** ** Reading the board *)

Lemma item_wraps {A} (lst : list A) (n : Z) :
  item lst n
  = if bool_decide (- Z.of_nat (length lst) ≤ n < Z.of_nat (length lst))
    then lst !! Z.to_nat (n mod Z.of_nat (length lst))
    else None.
Proof.
  unfold item. remember (Z.of_nat (length lst)) as len eqn:Hlen.
  destruct (bool_decide_reflect (0 ≤ n)) as [Hn|Hn].
  - destruct (bool_decide_reflect (- len ≤ n < len)) as [Hr|Hr].
    + by rewrite Z.mod_small by lia.
    + apply lookup_ge_None_2. lia.
  - destruct (bool_decide_reflect (- len ≤ n)) as [Hl|Hl].
    + rewrite bool_decide_true by lia.
      replace (n mod len) with (len + n); [done|].
      rewrite <- (Z_mod_plus_full n 1 len). rewrite Z.mod_small; lia.
    + by rewrite bool_decide_false by lia.
Qed.

Lemma entry_wraps b c :
  consistent b →
  entry b c
  = if bool_decide (- height b ≤ c.1 < height b) && bool_decide (- width b ≤ c.2 < width b)
    then Some (bool_decide ((c.1 mod height b, c.2 mod width b) ∈ mines b))
    else None.
Proof.
  intros Hb. pose proof Hb as (Hlen & Hrows & _).
  unfold entry. rewrite item_wraps, Hlen.
  destruct (bool_decide_reflect (- height b ≤ c.1 < height b)) as [H1|H1];
    [|by rewrite bool_decide_false by lia].
  rewrite bool_decide_true by lia. rewrite Z2Nat.id by lia.
  pose proof (Z.mod_pos_bound c.1 (height b)) as Hx.
  destruct (lookup_lt_is_Some_2 (board b) (Z.to_nat (c.1 mod height b))) as [row Hrow];
    [lia|].
  rewrite Hrow. simpl.
  pose proof (Forall_lookup_1 _ _ _ _ Hrows Hrow) as Hw. simpl in Hw.
  rewrite item_wraps, Hw.
  destruct (bool_decide_reflect (- width b ≤ c.2 < width b)) as [H2|H2];
    [|by rewrite bool_decide_false by lia].
  rewrite bool_decide_true by lia. rewrite Z2Nat.id by lia.
  pose proof (Z.mod_pos_bound c.2 (width b)) as Hy.
  pose proof (lookup_consistent b (Z.to_nat (c.1 mod height b))
                (Z.to_nat (c.2 mod width b)) Hb) as He.
  rewrite Hrow, !Z2Nat.id in He by lia. simpl in He. apply He; lia.
Qed.

(** [is_mine] checks no bounds.  On a board that [__init__] returned it
    raises [IndexError] for a row index outside [-height .. height - 1] or
    a column index outside [-width .. width - 1]; otherwise it tells
    whether the cell is a mine, a negative index counting from the end. *)
Theorem is_mine_wraps_negative_indexes draws rows columns target b c :
  init draws rows columns target = Built b →
  is_mine b c
  = if bool_decide (- rows ≤ c.1 < rows) && bool_decide (- columns ≤ c.2 < columns)
    then Some (bool_decide ((c.1 mod rows, c.2 mod columns) ∈ mines b))
    else None.
Proof.
  intros (Hb & <- & <- & _)%init_consistent. by apply entry_wraps.
Qed.

Lemma is_mine_wraps_example :
  init Games.draws_b 3 3 2 = Built Games.built_b
  ∧ is_mine Games.built_b (-1, -2)
    = (if bool_decide (- 3 ≤ -1 < 3) && bool_decide (- 3 ≤ -2 < 3)
       then Some (bool_decide (((-1) mod 3, (-2) mod 3) ∈ mines Games.built_b))
       else None).
Proof.
  assert (init Games.draws_b 3 3 2 = Built Games.built_b) as H by (vm_compute; reflexivity).
  split; [exact H|].
  exact (is_mine_wraps_negative_indexes Games.draws_b 3 3 2 Games.built_b (-1, -2) H).
Defined.

Lemma tally_consistent b cell (n : Z) c :
  consistent b →
  tally b cell (Some n) c = Some (Minesweeper.tally (view b) cell n c).
Proof.
  intros Hb. unfold tally, Minesweeper.tally. simpl.
  destruct (bool_decide (c = cell)); [done|].
  destruct (Minesweeper.in_bounds (height b) (width b) c) eqn:Hin; [|done].
  apply in_bounds_spec in Hin as [Hi Hj].
  rewrite entry_consistent by done. simpl. unfold Minesweeper.is_mine. simpl.
  by destruct (bool_decide (c ∈ mines b)).
Qed.

Lemma nearby_mines_consistent b cell :
  consistent b →
  nearby_mines b cell = Some (Minesweeper.nearby_mines (view b) cell).
Proof.
  intros Hb. unfold nearby_mines, Minesweeper.nearby_mines.
  generalize 0. induction (Minesweeper.window cell) as [|c l IH]; intros n; [done|].
  cbn [foldl]. rewrite tally_consistent by done. apply IH.
Qed.

(** On a board that [__init__] returned, [nearby_mines] raises nothing for
    any cell, on the board or off it, and returns the number of mines next
    to the cell; this is the count that [truthful] asks of a clue. *)
Theorem nearby_mines_reads_the_matrix draws rows columns target b cell :
  init draws rows columns target = Built b →
  nearby_mines b cell
  = Some (Z.of_nat (size (filter (λ c : Cell,
                                    Z.max (Z.abs (c.1 - cell.1)) (Z.abs (c.2 - cell.2)) = 1)
                                 (mines b))))
  ∧ nearby_mines b cell = Some (Minesweeper.nearby_mines (view b) cell).
Proof.
  intros (Hb & <- & <- & _)%init_consistent.
  rewrite nearby_mines_consistent by done. split; [|done]. f_equal.
  rewrite (nearby_mines_adjacent (view b) cell). simpl. do 2 f_equal.
  apply set_eq. intros c. rewrite !elem_of_filter.
  destruct Hb as (_ & _ & _ & Hin). split; [tauto|].
  intros [Hd Hc]. specialize (Hin c Hc). tauto.
Qed.

Lemma nearby_mines_reads_the_matrix_example :
  init Games.draws_b 3 3 2 = Built Games.built_b
  ∧ nearby_mines Games.built_b (1, 2)
    = Some (Z.of_nat (size (filter (λ c : Cell,
                                      Z.max (Z.abs (c.1 - 1)) (Z.abs (c.2 - 2)) = 1)
                                   (mines Games.built_b)))).
Proof.
  assert (init Games.draws_b 3 3 2 = Built Games.built_b) as H by (vm_compute; reflexivity).
  split; [exact H|].
  exact (proj1 (nearby_mines_reads_the_matrix Games.draws_b 3 3 2 Games.built_b (1, 2) H)).
Defined.

Lemma clues_truthful b cs :
  consistent b → clues b cs = true → MinesweeperAI.truthful (view b) cs = true.
Proof.
  intros Hb. unfold clues, MinesweeperAI.truthful. rewrite !forallb_forall.
  intros Hcs c Hc. specialize (Hcs c Hc). destruct c as [cell count| |]; try done.
  apply andb_true_iff in Hcs as [Hmine%bool_decide_eq_true Hcount%bool_decide_eq_true].
  rewrite nearby_mines_consistent in Hcount by done. injection Hcount as <-.
  rewrite bool_decide_true by done. rewrite andb_true_r.
  rewrite entry_wraps in Hmine by done.
  destruct (_ && _) eqn:Hrange; [|done].
  apply andb_true_iff in Hrange as [H1%bool_decide_eq_true H2%bool_decide_eq_true].
  unfold Minesweeper.is_mine. simpl. apply negb_true_iff, bool_decide_eq_false.
  intros Hin. destruct Hb as (_ & _ & _ & Hbounds).
  destruct (Hbounds _ Hin) as [Hi Hj].
  rewrite !Z.mod_small in Hmine by lia.
  injection Hmine as Hmine. apply bool_decide_eq_false in Hmine. by destruct cell.
Qed.

(** A whole game: the board is one that [__init__] returned, and the player
    is told, for cells of the board where [is_mine] returned [False], what
    [nearby_mines] returned.  Then every cell that [make_safe_move] returns
    is a cell of the board for which [is_mine] returns [False]. *)
Theorem safe_moves_never_hit_a_mine draws rows columns target b cs :
  init draws rows columns target = Built b →
  clues b cs = true →
  MinesweeperAI.on_board rows columns cs = true →
  let ai := (MinesweeperAI.run cs (MinesweeperAI.init rows columns)).1 in
  ∀ pick c, MinesweeperAI.make_safe_move pick ai = Some c →
            (0 ≤ c.1 < rows ∧ 0 ≤ c.2 < columns) ∧ is_mine b c = Some false.
Proof.
  intros (Hb & <- & <- & _)%init_consistent Hclues Hon ai pick c Hmove.
  apply make_safe_move_Some in Hmove as [Hc _].
  pose proof (run_sound (view b) cs (MinesweeperAI.init (height b) (width b))
                (clues_truthful b cs Hb Hclues) (init_sound (view b)))
    as (_ & _ & _ & Hsafes & _).
  pose proof (run_on_board (height b) (width b) cs
                (MinesweeperAI.init (height b) (width b)) Hon) as (_ & _ & _ & Hboard & _).
  { unfold MinesweeperAI.in_board, MinesweeperAI.init. simpl.
    split_and!; try done; apply empty_subseteq. }
  pose proof (Hboard c Hc) as Hin. apply elem_of_board_cells in Hin. split; [done|].
  unfold is_mine. rewrite entry_consistent by tauto. f_equal.
  apply bool_decide_eq_false. intros Hmine. by apply (Hsafes c Hc).
Qed.

Lemma safe_moves_never_hit_a_mine_example :
  let ai := (MinesweeperAI.run Games.game_b (MinesweeperAI.init 3 3)).1 in
  init Games.draws_b 3 3 2 = Built Games.built_b
  ∧ clues Games.built_b Games.game_b = true
  ∧ MinesweeperAI.on_board 3 3 Games.game_b = true
  ∧ ∀ pick c, MinesweeperAI.make_safe_move pick ai = Some c →
              (0 ≤ c.1 < 3 ∧ 0 ≤ c.2 < 3) ∧ is_mine Games.built_b c = Some false.
Proof.
  cbv zeta.
  assert (init Games.draws_b 3 3 2 = Built Games.built_b) as H1 by (vm_compute; reflexivity).
  assert (clues Games.built_b Games.game_b = true) as H2 by (vm_compute; reflexivity).
  assert (MinesweeperAI.on_board 3 3 Games.game_b = true) as H3 by (vm_compute; reflexivity).
  split; [exact H1|]. split; [exact H2|]. split; [exact H3|].
  exact (safe_moves_never_hit_a_mine Games.draws_b 3 3 2 Games.built_b Games.game_b H1 H2 H3).
Defined.

End board.
